(** * optionspricing: the pricing and simulation engine

    A shallow embedding of [black_scholes_call] and [monte_carlo_option_hit]
    from [optiontakeprofitui_pandas.py], and of [OptionPricerApp.run] from
    the values of its fields on.

    Number model.  A Python [float] is read as a real number: the
    arithmetic is exact, rounding and overflow are outside the model.
    What Python and NumPy do at the edges of the domain is kept:
    - Python scalar code raises: [x / 0] is [ZeroDivisionError],
      [math.log] of a non-positive number and [math.sqrt] of a negative
      one are [ValueError], a negative array dimension is [ValueError];
    - NumPy array code does not raise there but yields [nan]:
      [np.sqrt] of a negative number and the mean of an empty array.
    [math.erf] is the error function, [math_erf] below; the pricer is
    written over any [erf], because all but the sign of its result is
    independent of it.  NumPy's legacy generator behind [np.random.seed] and
    [np.random.normal] is a parameter of the simulator. *)

From Stdlib Require Import Reals Lra Lia ZArith ClassicalEpsilon.
From stdpp Require Import base list.

Open Scope R_scope.

(** ** Python exceptions *)

Inductive exn : Set :=
  | ZeroDivisionError
  | ValueError
  | IndexError.

Inductive result (A : Type) : Type :=
  | Ok (a : A)
  | Raise (e : exn).
Arguments Ok {A} a.
Arguments Raise {A} e.

Definition bind {A B} (m : result A) (k : A -> result B) : result B :=
  match m with
  | Ok a => k a
  | Raise e => Raise e
  end.

Notation "x <-! m ; k" := (bind m (fun x => k))
  (at level 100, m at next level, right associativity).

Definition is_ok {A} (m : result A) : Prop := exists a, m = Ok a.
Definition fails {A} (m : result A) : Prop := exists e, m = Raise e.

(** ** Scalar operations of Python's [float] and of [math] *)

Definition Req_bool (x y : R) : bool := if Req_dec_T x y then true else false.
Definition Rle_bool (x y : R) : bool := if Rle_dec x y then true else false.
Definition Rlt_bool (x y : R) : bool := if Rlt_dec x y then true else false.

(** [x / y] on floats. *)
Definition py_div (x y : R) : result R :=
  if Req_bool y 0 then Raise ZeroDivisionError else Ok (x / y).

(** [math.log x]. *)
Definition math_log (x : R) : result R :=
  if Rle_bool x 0 then Raise ValueError else Ok (ln x).

(** [math.sqrt x]. *)
Definition math_sqrt (x : R) : result R :=
  if Rlt_bool x 0 then Raise ValueError else Ok (sqrt x).

Section Pricer.

(** The function called as [math.erf]. *)
Variable erf : R -> R.

(** The inline helper [N = lambda x: 0.5 * (1 + math.erf(x / math.sqrt(2)))]. *)
Definition N (x : R) : result R :=
  s2 <-! math_sqrt 2;
  a <-! py_div x s2;
  Ok (0.5 * (1 + erf a)).

(** [black_scholes_call(S, K, T, r, sigma, q)], operand by operand in
    Python's evaluation order. *)
Definition black_scholes_call (S K T r sigma q : R) : result R :=
  sk <-! py_div S K;
  l <-! math_log sk;
  let num := l + (r - q + 0.5 * sigma ^ 2) * T in
  st <-! math_sqrt T;
  d1 <-! py_div num (sigma * st);
  st' <-! math_sqrt T;
  let d2 := d1 - sigma * st' in
  n1 <-! N d1;
  n2 <-! N d2;
  Ok (S * exp (- q * T) * n1 - K * exp (- r * T) * n2).

(** The pricing formulas in the words of the specification. *)
Definition spec_d1 (S0 K T r sigma q : R) : R :=
  (ln (S0 / K) + (r - q + 0.5 * sigma ^ 2) * T) / (sigma * sqrt T).
Definition spec_d2 (S0 K T r sigma q : R) : R :=
  spec_d1 S0 K T r sigma q - sigma * sqrt T.
Definition spec_N (x : R) : R := 0.5 * (1 + erf (x / sqrt 2)).
Definition spec_price (S0 K T r sigma q : R) : R :=
  S0 * exp (- q * T) * spec_N (spec_d1 S0 K T r sigma q)
  - K * exp (- r * T) * spec_N (spec_d2 S0 K T r sigma q).

End Pricer.

(** ** The error function

    [math.erf] is the error function,
    2/sqrt(pi) times the integral of exp(-t^2) from 0 to x. *)

Definition cont_integrable (f : R -> R) (a b : R) (Hf : continuity f)
  : Riemann_integrable f a b :=
  match Rle_dec a b with
  | left Hab => continuity_implies_RiemannInt Hab (fun x _ => Hf x)
  | right Hab =>
      RiemannInt_P1
        (continuity_implies_RiemannInt (Rlt_le _ _ (Rnot_le_lt _ _ Hab)) (fun x _ => Hf x))
  end.

(** The integral of [f] from [a] to [b], with the proof that [f] is continuous. *)
Definition integral_with (f : R -> R) (Hf : continuity f) (a b : R) : R :=
  RiemannInt (cont_integrable f a b Hf).

(** The integral of a continuous [f] from [a] to [b] (0 for any other [f]). *)
Definition integral (f : R -> R) (a b : R) : R :=
  match excluded_middle_informative (continuity f) with
  | left Hf => integral_with f Hf a b
  | right _ => 0
  end.

Definition gauss (t : R) : R := exp (- (t * t)).

(** The primitive of the Gaussian that vanishes at 0. *)
Definition gauss_primitive (x : R) : R := integral gauss 0 x.

Definition math_erf (x : R) : R := 2 / sqrt PI * gauss_primitive x.

(** The two properties of the error function that the sign of the price
    rests on: its derivative is a positive multiple of exp(-x^2) and it
    tends to -1 at minus infinity. *)
Definition error_function (erf : R -> R) : Prop :=
  (exists c, 0 < c /\ forall x, derivable_pt_lim erf x (c * exp (- (x * x)))) /\
  (forall eps, 0 < eps -> exists A, forall x, x < A -> Rabs (erf x + 1) < eps).

(** The function A(t) = integral over [0,1] of exp(-t^2 (1+x^2)) / (1+x^2),
    which carries the value of the Gaussian integral, with the first two
    derivatives in [t] of its integrand. *)
Definition aux_integrand (t x : R) : R := exp (- (t * t) * (1 + x * x)) / (1 + x * x).
Definition aux_integrand_dt (t x : R) : R := - 2 * t * exp (- (t * t) * (1 + x * x)).
Definition aux_integrand_dtt (t x : R) : R :=
  (- 2 + 4 * (t * t) * (1 + x * x)) * exp (- (t * t) * (1 + x * x)).
Definition aux_integral (t : R) : R := integral (aux_integrand t) 0 1.

(** The remainder of the difference quotient of [aux_integrand] in [t]. *)
Definition aux_remainder (t h c x : R) : R :=
  (aux_integrand (t + h) x - aux_integrand t x) * c - aux_integrand_dt t x.

(** The density [c * exp(-x^2/2)]. *)
Definition dens (c x : R) : R := c * exp (- (x * x) / 2).

(** ** NumPy's [float64] elements and two-dimensional arrays *)

(** An array element: a number or [nan]. *)
Inductive float64 : Type :=
  | Num (x : R)
  | NaN.

Definition np_add (a b : float64) : float64 :=
  match a, b with
  | Num x, Num y => Num (x + y)
  | _, _ => NaN
  end.

Definition np_mul (a b : float64) : float64 :=
  match a, b with
  | Num x, Num y => Num (x * y)
  | _, _ => NaN
  end.

Definition np_exp (a : float64) : float64 :=
  match a with
  | Num x => Num (exp x)
  | NaN => NaN
  end.

(** [np.sqrt x] on a scalar: [nan] (and a warning) below zero, no exception. *)
Definition np_sqrt (x : R) : float64 :=
  if Rlt_bool x 0 then NaN else Num (sqrt x).

(** [v >= t]: every comparison with [nan] is false. *)
Definition np_ge (v : float64) (t : R) : bool :=
  match v with
  | Num x => Rle_bool t x
  | NaN => false
  end.

Definition Rsum (l : list R) : R := foldr Rplus 0 l.

(** [np.mean] of a one-dimensional array of numbers: [nan] on the empty
    array (0.0 / 0), no exception. *)
Definition np_mean (l : list R) : float64 :=
  match l with
  | [] => NaN
  | _ :: _ => Num (Rsum l / INR (length l))
  end.

(** A two-dimensional array: its shape and its rows. *)
Record ndarray (A : Type) : Type := NdArray {
  shape0 : nat;
  shape1 : nat;
  data : list (list A)
}.
Arguments NdArray {A} shape0 shape1 data.
Arguments shape0 {A} n.
Arguments shape1 {A} n.
Arguments data {A} n.

(** [M[:, t]] read; [d] fills a row shorter than the shape says. *)
Definition get_col {A} (d : A) (M : ndarray A) (t : nat) : result (list A) :=
  if decide (t < shape1 M)%nat
  then Ok (map (fun row => nth t row d) (data M))
  else Raise IndexError.

(** [M[:, t] = col]. *)
Definition set_col {A} (M : ndarray A) (t : nat) (col : list A) : result (ndarray A) :=
  if decide (t < shape1 M)%nat
  then Ok (NdArray (shape0 M) (shape1 M)
             (zip_with (fun row v => <[t:=v]> row) (data M) col))
  else Raise IndexError.

(** [np.zeros_like(Z)]. *)
Definition np_zeros_like {A} (Z : ndarray A) : ndarray float64 :=
  NdArray (shape0 Z) (shape1 Z) (replicate (shape0 Z) (replicate (shape1 Z) (Num 0))).

(** [S >= threshold], elementwise. *)
Definition ge_mask (S : ndarray float64) (threshold : R) : list (list bool) :=
  map (map (fun v => np_ge v threshold)) (data S).

(** [np.any(B, axis=1)]. *)
Definition np_any_axis1 (B : list (list bool)) : list bool :=
  map (existsb (fun b : bool => b)) B.

Fixpoint first_true (b : list bool) : option nat :=
  match b with
  | [] => None
  | true :: _ => Some O
  | false :: b' => S <$> first_true b'
  end.

(** [np.argmax(B, axis=1)] on a boolean array with [ncols] columns: in each
    row the first index of the largest entry, that is the first [True], or 0
    in a row without one; an empty axis is a [ValueError]. *)
Definition np_argmax_axis1 (ncols : nat) (B : list (list bool)) : result (list nat) :=
  if decide (ncols = O) then Raise ValueError
  else Ok (map (fun b => default O (first_true b)) B).

(** [a[mask]]: the entries of [a] where [mask] is true. *)
Fixpoint mask_select {A} (mask : list bool) (a : list A) : list A :=
  match mask, a with
  | m :: mask', x :: a' => if m then x :: mask_select mask' a' else mask_select mask' a'
  | _, _ => []
  end.

Definition bool_R (b : bool) : R := if b then 1 else 0.

(** [for x in xs: s = body(x, s)], stopping at the first exception. *)
Fixpoint for_each {A St} (body : A -> St -> result St) (xs : list A) (s : St) : result St :=
  match xs with
  | [] => Ok s
  | x :: xs' => s' <-! body x s; for_each body xs' s'
  end.

(** ** The Monte Carlo simulator *)

Section Simulator.

(** NumPy's global legacy generator: its state, [np.random.seed] and one
    standard-normal draw. *)
Variable rng_state : Type.
Variable np_random_seed : Z -> rng_state.
Variable legacy_gauss : rng_state -> R * rng_state.

Fixpoint draw_row (g : rng_state) (m : nat) : list R * rng_state :=
  match m with
  | O => ([], g)
  | S m' =>
      let '(z, g1) := legacy_gauss g in
      let '(zs, g2) := draw_row g1 m' in
      (z :: zs, g2)
  end.

Fixpoint draw_rows (g : rng_state) (n m : nat) : list (list R) * rng_state :=
  match n with
  | O => ([], g)
  | S n' =>
      let '(row, g1) := draw_row g m in
      let '(rows, g2) := draw_rows g1 n' m in
      (row :: rows, g2)
  end.

(** [np.random.normal(size=(n, m))]: the array is filled in row-major order
    from the global generator; a negative dimension is a [ValueError]. *)
Definition np_random_normal (g : rng_state) (n m : Z) : result (ndarray R) * rng_state :=
  if decide (n < 0 \/ m < 0)%Z then (Raise ValueError, g)
  else
    let '(rows, g') := draw_rows g (Z.to_nat n) (Z.to_nat m) in
    (Ok (NdArray (Z.to_nat n) (Z.to_nat m) rows), g').

(** The loop body
    [S[:, t] = S[:, t-1] * np.exp((r - q - 0.5*sigma**2)*dt + sigma*np.sqrt(dt)*Z[:, t])]. *)
Definition gbm_step (r q sigma dt : R) (Z : ndarray R) (t : nat) (S : ndarray float64)
  : result (ndarray float64) :=
  prev <-! get_col NaN S (t - 1);
  let drift := (r - q - 0.5 * sigma ^ 2) * dt in
  let vol := np_mul (Num sigma) (np_sqrt dt) in
  z <-! get_col 0 Z t;
  let growth := map (fun zi => np_exp (np_add (Num drift) (np_mul vol (Num zi)))) z in
  set_col S t (zip_with np_mul prev growth).

(** Lines 24 to 27: the array of paths from the draws; the loop runs over
    [range(1, n_steps)]. *)
Definition build_paths (S0 r q sigma dt : R) (n_steps : Z) (Z : ndarray R)
  : result (ndarray float64) :=
  let S := np_zeros_like Z in
  S <-! set_col S 0 (replicate (shape0 S) (Num S0));
  for_each (gbm_step r q sigma dt Z) (seq 1 (Z.to_nat (n_steps - 1))) S.

(** Lines 29 to 37: the reduction of the paths to the three statistics. *)
Definition reduce_paths (S : ndarray float64) (K T r threshold dt : R)
  : result (float64 * option float64 * float64) :=
  let hit_mask := np_any_axis1 (ge_mask S threshold) in
  let hit_prob := np_mean (map bool_R hit_mask) in
  hit_indices <-! np_argmax_axis1 (shape1 S) (ge_mask S threshold);
  let hit_times := map (fun i => INR i * dt) (mask_select hit_mask hit_indices) in
  let avg_hit_time :=
    if decide (0 < length hit_times)%nat then Some (np_mean hit_times) else None in
  let payoff := map (fun h : bool => if h then threshold - K else 0) hit_mask in
  let PV := np_mul (np_mean payoff) (Num (exp (- r * T))) in
  Ok (hit_prob, avg_hit_time, PV).

(** Lines 21 to 27 with the generator threaded through: [dt] and the paths,
    and the generator state left behind. *)
Definition simulate_paths (g : rng_state) (S0 T r sigma q : R) (n_paths n_steps : Z)
  : result (R * ndarray float64) * rng_state :=
  match py_div T (IZR n_steps) with
  | Raise e => (Raise e, g)
  | Ok dt =>
      let g := np_random_seed 42 in
      match np_random_normal g n_paths n_steps with
      | (Raise e, g) => (Raise e, g)
      | (Ok Z, g) => (S <-! build_paths S0 r q sigma dt n_steps Z; Ok (dt, S), g)
      end
  end.

(** [monte_carlo_option_hit(S0, K, T, r, sigma, threshold, q, n_paths, n_steps)]
    run from the generator state [g]: the returned triple
    [(hit_prob, avg_hit_time, PV)] or the exception, and the new state. *)
Definition monte_carlo_option_hit (g : rng_state)
    (S0 K T r sigma threshold q : R) (n_paths n_steps : Z)
  : result (float64 * option float64 * float64) * rng_state :=
  let '(paths, g') := simulate_paths g S0 T r sigma q n_paths n_steps in
  (p <-! paths; reduce_paths (snd p) K T r threshold (fst p), g').

End Simulator.

Arguments draw_row {rng_state} legacy_gauss g m.
Arguments draw_rows {rng_state} legacy_gauss g n m.
Arguments np_random_normal {rng_state} legacy_gauss g n m.
Arguments simulate_paths {rng_state} np_random_seed legacy_gauss g S0 T r sigma q n_paths n_steps.
Arguments monte_carlo_option_hit {rng_state} np_random_seed legacy_gauss
  g S0 K T r sigma threshold q n_paths n_steps.

(** ** The statistics in the words of the specification *)

(** A step value is at or above the barrier. *)
Definition reaches (threshold : R) (v : float64) : Prop :=
  exists x, v = Num x /\ threshold <= x.

(** A path hits: some step value is [>= threshold]. *)
Definition path_hits (threshold : R) (path : list float64) : Prop :=
  exists i v, path !! i = Some v /\ reaches threshold v.

(** [i] is the index of the first step of the path with value [>= threshold]. *)
Definition first_hit (threshold : R) (path : list float64) (i : nat) : Prop :=
  (exists v, path !! i = Some v /\ reaches threshold v) /\
  (forall j w, (j < i)%nat -> path !! j = Some w -> ~ reaches threshold w).

(** Payoff per path: [threshold - K] if the path hits, else [0]. *)
Definition spec_payoff (threshold K : R) (path : list float64) (p : R) : Prop :=
  (path_hits threshold path /\ p = threshold - K) \/
  (~ path_hits threshold path /\ p = 0).

(** The hit times [index * dt] of the hitting paths, in path order; a path
    that does not hit contributes nothing. *)
Inductive spec_hit_times (threshold dt : R) : list (list float64) -> list R -> Prop :=
  | sht_nil : spec_hit_times threshold dt [] []
  | sht_hit path paths i ts :
      first_hit threshold path i ->
      spec_hit_times threshold dt paths ts ->
      spec_hit_times threshold dt (path :: paths) (INR i * dt :: ts)
  | sht_miss path paths ts :
      ~ path_hits threshold path ->
      spec_hit_times threshold dt paths ts ->
      spec_hit_times threshold dt (path :: paths) ts.

(** The mean of a non-empty list. *)
Definition spec_mean (l : list R) : R := Rsum l / INR (length l).

(** ** Shapes *)

(** The rows of an array agree with its shape. *)
Definition well_shaped {A} (M : ndarray A) : Prop :=
  length (data M) = shape0 M /\ Forall (fun row => length row = shape1 M) (data M).

(** Every path starts at [S0]: column 0 of the array. *)
Definition starts_at (S0 : R) (M : ndarray float64) : Prop :=
  Forall (fun row => row !! O = Some (Num S0)) (data M).

(** ** The paths, row by row *)

(** The factor of one step,
    [np.exp((r - q - 0.5*sigma**2)*dt + sigma*np.sqrt(dt)*z)]. *)
Definition gbm_growth (r q sigma dt z : R) : float64 :=
  np_exp (np_add (Num ((r - q - 0.5 * sigma ^ 2) * dt))
                 (np_mul (np_mul (Num sigma) (np_sqrt dt)) (Num z))).

(** One path written along its row: each value is the one before times the
    factor of the step. *)
Fixpoint gbm_from (r q sigma dt : R) (prev : float64) (zs : list R) : list float64 :=
  match zs with
  | [] => []
  | z :: zs' =>
      let v := np_mul prev (gbm_growth r q sigma dt z) in
      v :: gbm_from r q sigma dt v zs'
  end.

(** The path of a row of draws: it starts at [S0]; the draw of column 0 is
    not used. *)
Definition gbm_path (S0 r q sigma dt : R) (zrow : list R) : list float64 :=
  Num S0 :: gbm_from r q sigma dt (Num S0) (tail zrow).

(** A row of the array while the loop runs: the first [k] columns are
    filled, the others still hold 0. *)
Definition partial_path (S0 r q sigma dt : R) (k : nat) (zrow : list R) : list float64 :=
  take k (gbm_path S0 r q sigma dt zrow) ++ replicate (length zrow - k) (Num 0).

(** ** The application: [OptionPricerApp.run]

    [run] from the values of its fields on: the entries are taken as read
    by [float], the expiration date as read and set against today, with
    [days] for [(expiry_date - datetime.today().date()).days].  What is
    written to the output box is kept as the values that the lines format;
    the line of the running time is left out. *)

Inductive verdict : Set :=
  | FAIRLY_PRICED
  | UNDERVALUED
  | OVERVALUED.

(** ["FAIRLY PRICED" if abs(diff) < 0.01 else
     ("UNDERVALUED" if diff > 0 else "OVERVALUED")]. *)
Definition verdict_of (diff : R) : verdict :=
  if Rlt_bool (Rabs diff) 0.01 then FAIRLY_PRICED
  else if Rlt_bool 0 diff then UNDERVALUED
  else OVERVALUED.

(** The truth value of [avg_hit_time] in [... if avg_hit_time else ...]:
    [None] and 0.0 are false, every other number and [nan] are true. *)
Definition truth_value (a : option float64) : bool :=
  match a with
  | None => false
  | Some NaN => true
  | Some (Num x) => negb (Req_bool x 0)
  end.

(** The values of the result lines; [rep_avg_hit_time] is [None] where the
    line reads N/A. *)
Record report : Type := Report {
  rep_verdict : verdict;
  rep_diff : R;
  rep_diff_percent : R;
  rep_midpoint : R;
  rep_bid : R;
  rep_ask : R;
  rep_fair_value : R;
  rep_threshold : R;
  rep_PV : float64;
  rep_hit_probability : float64;
  rep_avg_hit_time : option float64;
  rep_time_to_expiry : R
}.

(** What [run] writes: the message that the expiration must be in the
    future, the message of a caught exception, or the result lines. *)
Inductive output : Type :=
  | ExpirationNotInFuture
  | Error (e : exn)
  | Results (rep : report).

Section Application.

Variable rng_state : Type.
Variable np_random_seed : Z -> rng_state.
Variable legacy_gauss : rng_state -> R * rng_state.

(** Lines 120 to 125 and 136 to 163, within [try ... except Exception]. *)
Definition run (g : rng_state) (S0 K r_percent q_percent sigma_percent bid ask : R)
    (days : Z) (multiple : R) : output * rng_state :=
  let r := r_percent / 100 in
  let q := q_percent / 100 in
  let sigma := sigma_percent / 100 in
  let midpoint := (bid + ask) / 2 in
  let T := IZR days / 365 in
  if Rle_bool T 0 then (ExpirationNotInFuture, g)
  else
    let threshold := midpoint * multiple in
    match black_scholes_call math_erf S0 K T r sigma q with
    | Raise e => (Error e, g)
    | Ok C0 =>
        match monte_carlo_option_hit np_random_seed legacy_gauss
                g S0 K T r sigma threshold q 20000 126 with
        | (Raise e, g') => (Error e, g')
        | (Ok (hit_prob, avg_hit_time, PV), g') =>
            let diff := midpoint - C0 in
            match py_div (100 * diff) C0 with
            | Raise e => (Error e, g')
            | Ok diff_percent =>
                (Results
                   (Report (verdict_of diff) diff diff_percent midpoint bid ask C0 threshold PV
                      (np_mul hit_prob (Num 100))
                      (if truth_value avg_hit_time then avg_hit_time else None)
                      T),
                 g')
            end
        end
    end.

End Application.

Arguments run {rng_state} np_random_seed legacy_gauss
  g S0 K r_percent q_percent sigma_percent bid ask days multiple.

(** ** Sample instances of the parameters

    A counter generator, to run the simulator on concrete inputs. *)

Definition sample_seed (s : Z) : nat := Z.to_nat s.
Definition sample_gauss (g : nat) : R * nat := (INR g - 43, S g).

(** ** Facts on the scalar operations *)

Lemma Req_bool_true x y : x = y -> Req_bool x y = true.
Proof. intros H. unfold Req_bool. destruct (Req_dec_T x y); [reflexivity | contradiction]. Qed.

Lemma Req_bool_false x y : x <> y -> Req_bool x y = false.
Proof. intros H. unfold Req_bool. destruct (Req_dec_T x y); [contradiction | reflexivity]. Qed.

Lemma Rle_bool_true x y : x <= y -> Rle_bool x y = true.
Proof. intros H. unfold Rle_bool. destruct (Rle_dec x y); [reflexivity | contradiction]. Qed.

Lemma Rle_bool_false x y : y < x -> Rle_bool x y = false.
Proof. intros H. unfold Rle_bool. destruct (Rle_dec x y); [lra | reflexivity]. Qed.


Lemma Rlt_bool_false x y : y <= x -> Rlt_bool x y = false.
Proof. intros H. unfold Rlt_bool. destruct (Rlt_dec x y); [lra | reflexivity]. Qed.

Lemma py_div_ok x y : y <> 0 -> py_div x y = Ok (x / y).
Proof. intros H. unfold py_div. now rewrite Req_bool_false. Qed.

Lemma py_div_zero x : py_div x 0 = Raise ZeroDivisionError.
Proof. unfold py_div. now rewrite Req_bool_true. Qed.

Lemma math_log_ok x : 0 < x -> math_log x = Ok (ln x).
Proof. intros H. unfold math_log. now rewrite Rle_bool_false. Qed.


Lemma math_sqrt_ok x : 0 <= x -> math_sqrt x = Ok (sqrt x).
Proof. intros H. unfold math_sqrt. now rewrite Rlt_bool_false. Qed.


Lemma sqrt2_neq_0 : sqrt 2 <> 0.
Proof. pose proof (sqrt_lt_R0 2 ltac:(lra)). lra. Qed.

Lemma N_ok erf x : N erf x = Ok (spec_N erf x).
Proof.
  unfold N, spec_N. rewrite math_sqrt_ok by lra. simpl.
  rewrite py_div_ok by apply sqrt2_neq_0. reflexivity.
Qed.

(** ** The pricer, case by case *)





Lemma black_scholes_call_value erf S0 K T r sigma q :
  K <> 0 -> 0 < S0 / K -> 0 < T -> sigma <> 0 ->
  black_scholes_call erf S0 K T r sigma q = Ok (spec_price erf S0 K T r sigma q).
Proof.
  intros HK Hsk HT Hs.
  assert (HsT : 0 < sqrt T) by now apply sqrt_lt_R0.
  assert (Hden : sigma * sqrt T <> 0).
  { apply Rmult_integral_contrapositive_currified; [assumption | lra]. }
  unfold black_scholes_call.
  rewrite py_div_ok by assumption. simpl.
  rewrite math_log_ok by assumption. simpl.
  rewrite math_sqrt_ok by lra. simpl.
  rewrite py_div_ok by assumption. simpl.
  rewrite !N_ok. simpl.
  reflexivity.
Qed.

(** C1. On S0 > 0, K > 0, T > 0, sigma > 0 the pricer raises nothing and
    returns S0 * exp(-q*T) * N(d1) - K * exp(-r*T) * N(d2) with d1, d2 and N
    as the specification writes them. *)
Theorem black_scholes_call_formula erf (S0 K T r sigma q : R) :
  0 < S0 -> 0 < K -> 0 < T -> 0 < sigma ->
  black_scholes_call erf S0 K T r sigma q = Ok (spec_price erf S0 K T r sigma q).
Proof.
  intros HS HK HT Hs.
  apply black_scholes_call_value; try lra.
  now apply Rdiv_lt_0_compat.
Qed.

(** ** Integrals of continuous functions

    The integral of a continuous function, handled through its derivative
    in the upper bound. *)

Lemma integral_unfold f (Hf : continuity f) a b : integral f a b = integral_with f Hf a b.
Proof.
  unfold integral. destruct (excluded_middle_informative (continuity f)) as [Hf'|Hn].
  - apply RiemannInt_P5.
  - contradiction.
Qed.

Lemma integral_same f Hf a : integral_with f Hf a a = 0.
Proof. apply RiemannInt_P9. Qed.

Lemma integral_deriv f Hf a x : derivable_pt_lim (integral_with f Hf a) x (f x).
Proof.
  set (lo := Rmin a x - 1). set (hi := Rmax a x + 1).
  pose proof (Rmin_l a x). pose proof (Rmin_r a x).
  pose proof (Rmax_l a x). pose proof (Rmax_r a x).
  assert (Hlx : lo < x) by (unfold lo; lra).
  assert (Hxh : x < hi) by (unfold hi; lra).
  assert (Hla : lo < a) by (unfold lo; lra).
  assert (Hlh : lo <= hi) by lra.
  assert (C0 : forall y, lo <= y <= hi -> continuity_pt f y) by (intros y _; apply Hf).
  pose proof (RiemannInt_P27 Hlh C0 (conj Hlx Hxh)) as HP.
  apply derivable_pt_lim_locally_ext
    with (f := fun y => primitive Hlh (FTC_P1 Hlh C0) y
                        - RiemannInt (cont_integrable f lo a Hf))
         (a := lo) (b := hi).
  - split; assumption.
  - intros z [Hz1 Hz2]. unfold integral_with, primitive.
    destruct (Rle_dec lo z) as [r|n]; [|lra].
    destruct (Rle_dec z hi) as [r0|n]; [|lra].
    rewrite <- (RiemannInt_P26 (cont_integrable f lo a Hf) (cont_integrable f a z Hf)
                  (FTC_P1 Hlh C0 r r0)).
    ring.
  - replace (f x) with (f x - 0) by ring.
    apply (derivable_pt_lim_minus (primitive Hlh (FTC_P1 Hlh C0))
             (fun _ => RiemannInt (cont_integrable f lo a Hf))).
    + exact HP.
    + apply (derivable_pt_lim_const (RiemannInt (cont_integrable f lo a Hf))).
Qed.

(** Two functions with the same derivative differ by a constant. *)
Lemma same_derivative_same_growth (F G f : R -> R) (a b : R) :
  (forall x, derivable_pt_lim F x (f x)) ->
  (forall x, derivable_pt_lim G x (f x)) ->
  F b - F a = G b - G a.
Proof.
  intros HF HG.
  assert (Hd : forall x, derivable_pt_lim (fun t => F t - G t) x 0).
  { intros x. replace 0 with (f x - f x) by ring.
    apply (derivable_pt_lim_minus F G); [apply HF | apply HG]. }
  destruct (Rtotal_order a b) as [Hab | [<- | Hab]].
  - destruct (MVT_cor2 (fun t => F t - G t) (fun _ => 0) a b Hab) as (z & Hz & _);
      [intros; apply Hd | lra].
  - lra.
  - destruct (MVT_cor2 (fun t => F t - G t) (fun _ => 0) b a Hab) as (z & Hz & _);
      [intros; apply Hd | lra].
Qed.

(** The fundamental theorem, for a primitive given on the whole line. *)
Lemma integral_FTC f Hf (F : R -> R) a b :
  (forall x, derivable_pt_lim F x (f x)) -> integral_with f Hf a b = F b - F a.
Proof.
  intros HF.
  pose proof (same_derivative_same_growth (integral_with f Hf a) F f a b
                (integral_deriv f Hf a) HF) as H.
  rewrite integral_same in H. lra.
Qed.

(** Monotonicity. *)
Lemma integral_le f Hf g Hg a b :
  a <= b -> (forall x, a <= x <= b -> f x <= g x) ->
  integral_with f Hf a b <= integral_with g Hg a b.
Proof.
  intros [Hab | <-] Hle; [|rewrite !integral_same; lra].
  destruct (MVT_cor2 (fun y => integral_with g Hg a y - integral_with f Hf a y)
              (fun y => g y - f y) a b Hab) as (z & Hz & Hz1).
  - intros y _. apply (derivable_pt_lim_minus (integral_with g Hg a) (integral_with f Hf a));
      apply integral_deriv.
  - rewrite !integral_same in Hz.
    assert (0 <= (g z - f z) * (b - a)).
    { apply Rmult_le_pos; [|lra]. specialize (Hle z ltac:(lra)). lra. }
    lra.
Qed.

Ltac minmax :=
  unfold Rmin, Rmax in *;
  repeat match goal with
    | |- context [Rle_dec ?a ?b] => destruct (Rle_dec a b)
    | H : context [Rle_dec ?a ?b] |- _ => destruct (Rle_dec a b)
    | |- context [Rcase_abs ?a] => destruct (Rcase_abs a)
    end;
  try lra.

(** A bound on the growth of a function from a bound on its derivative. *)
Lemma mean_value_bound (f f' : R -> R) (M u v : R) :
  (forall s, derivable_pt_lim f s (f' s)) ->
  (forall s, Rmin u v <= s <= Rmax u v -> Rabs (f' s) <= M) ->
  Rabs (f v - f u) <= M * Rabs (v - u).
Proof.
  intros Hd Hb.
  destruct (Rtotal_order u v) as [Huv | [<- | Huv]].
  - destruct (MVT_cor2 f f' u v Huv) as (z & Hz & Hz1); [intros; apply Hd|].
    rewrite Hz, Rabs_mult. apply Rmult_le_compat_r; [apply Rabs_pos|].
    apply Hb. rewrite Rmin_left, Rmax_right by lra. lra.
  - replace (f u - f u) with 0 by ring. replace (u - u) with 0 by ring.
    rewrite Rabs_R0. lra.
  - destruct (MVT_cor2 f f' v u Huv) as (z & Hz & Hz1); [intros; apply Hd|].
    rewrite <- (Rabs_Ropp (f v - f u)), <- (Rabs_Ropp (v - u)).
    replace (- (f v - f u)) with (f u - f v) by ring.
    replace (- (v - u)) with (u - v) by ring.
    rewrite Hz, Rabs_mult. apply Rmult_le_compat_r; [apply Rabs_pos|].
    apply Hb. rewrite Rmin_right, Rmax_left by lra. lra.
Qed.

(** The first-order remainder, from a bound on the second derivative. *)
Lemma first_order_remainder (f f' f'' : R -> R) (M t h : R) :
  (forall s, derivable_pt_lim f s (f' s)) ->
  (forall s, derivable_pt_lim f' s (f'' s)) ->
  (forall s, Rmin t (t + h) <= s <= Rmax t (t + h) -> Rabs (f'' s) <= M) ->
  Rabs (f (t + h) - f t - h * f' t) <= M * (h * h).
Proof.
  intros Hd Hdd Hb.
  assert (HM : 0 <= M).
  { apply Rle_trans with (Rabs (f'' t)); [apply Rabs_pos|]. apply Hb.
    split; [apply Rmin_l | apply Rmax_l]. }
  assert (Hg : Rabs ((fun s => f s - s * f' t) (t + h) - (fun s => f s - s * f' t) t)
               <= M * Rabs h * Rabs (t + h - t)).
  2:{ cbv beta in Hg.
      replace (f (t + h) - (t + h) * f' t - (f t - t * f' t))
        with (f (t + h) - f t - h * f' t) in Hg by ring.
      replace (t + h - t) with h in Hg by ring.
      replace (M * (h * h)) with (M * Rabs h * Rabs h); [exact Hg|].
      rewrite Rmult_assoc. f_equal. rewrite <- Rabs_mult. apply Rabs_right. nra. }
  apply (mean_value_bound (fun s => f s - s * f' t) (fun s => f' s - f' t)).
  - intros s. replace (f' s - f' t) with (f' s - (1 * f' t + s * 0)) by ring.
    apply (derivable_pt_lim_minus f (fun u => u * f' t)); [apply Hd|].
    apply (derivable_pt_lim_mult (fun u => u) (fun _ => f' t)).
    + apply derivable_pt_lim_id.
    + apply (derivable_pt_lim_const (f' t)).
  - intros s Hs.
    apply Rle_trans with (M * Rabs (s - t)).
    + apply (mean_value_bound f' f'' M t s Hdd).
      intros z Hz. apply Hb. minmax.
    + apply Rmult_le_compat_l; [exact HM|].
      unfold Rabs. minmax.
Qed.

Lemma const_cont (K : R) : continuity (fun _ => K).
Proof. reg. Qed.

Lemma integral_const K a b : integral_with (fun _ => K) (const_cont K) a b = K * (b - a).
Proof.
  rewrite (integral_FTC _ _ (fun y => K * y)); [ring|].
  intros x.
  assert (pr : derivable_pt (fun y => K * y) x) by reg.
  apply (derive_pt_eq_1 _ _ _ pr). reg.
Qed.

Lemma integral_bound f Hf K a b :
  a <= b -> (forall x, a <= x <= b -> Rabs (f x) <= K) ->
  Rabs (integral_with f Hf a b) <= K * (b - a).
Proof.
  intros Hab Hb. apply Rabs_le. split.
  - replace (- (K * (b - a))) with (- K * (b - a)) by ring.
    rewrite <- integral_const. apply integral_le; [exact Hab|].
    intros x Hx. specialize (Hb x Hx). revert Hb. unfold Rabs. destruct (Rcase_abs (f x)); lra.
  - rewrite <- integral_const. apply integral_le; [exact Hab|].
    intros x Hx. specialize (Hb x Hx). revert Hb. unfold Rabs. destruct (Rcase_abs (f x)); lra.
Qed.

(** ** The Gaussian integral

    With G the primitive of exp(-x^2) and A the auxiliary integral,
    G(t)^2 + A(t) is constant, equal to pi/4, and 0 <= A(t) <= exp(-t^2). *)

Lemma aux_integrand_cont t : continuity (aux_integrand t).
Proof. unfold aux_integrand. reg; intros x; nra. Qed.

Lemma aux_integral_unfold t :
  aux_integral t = integral_with (aux_integrand t) (aux_integrand_cont t) 0 1.
Proof. apply integral_unfold. Qed.

Lemma aux_integrand_dt_cont t : continuity (aux_integrand_dt t).
Proof. unfold aux_integrand_dt. reg. Qed.

Lemma aux_integrand_deriv x t : derivable_pt_lim (fun s => aux_integrand s x) t (aux_integrand_dt t x).
Proof.
  unfold aux_integrand, aux_integrand_dt.
  assert (pr : derivable_pt (fun s => exp (- (s * s) * (1 + x * x)) / (1 + x * x)) t) by reg.
  apply (derive_pt_eq_1 _ _ _ pr). reg. field. nra.
Qed.

Lemma aux_integrand_dt_deriv x t : derivable_pt_lim (fun s => aux_integrand_dt s x) t (aux_integrand_dtt t x).
Proof.
  unfold aux_integrand_dt, aux_integrand_dtt.
  assert (pr : derivable_pt (fun s => - 2 * s * exp (- (s * s) * (1 + x * x))) t) by reg.
  apply (derive_pt_eq_1 _ _ _ pr). reg. unfold comp. ring.
Qed.

Lemma exp_neg_le_1 y : 0 <= y -> exp (- y) <= 1.
Proof.
  intros Hy. rewrite <- exp_0. destruct Hy as [Hy | <-].
  - left. apply exp_increasing. lra.
  - rewrite Ropp_0. lra.
Qed.

Lemma aux_integrand_dtt_bound t s x :
  0 <= x <= 1 -> Rabs s <= Rabs t + 1 ->
  Rabs (aux_integrand_dtt s x) <= 2 + 8 * ((Rabs t + 1) * (Rabs t + 1)).
Proof.
  intros Hx Hs. unfold aux_integrand_dtt. rewrite Rabs_mult.
  assert (Hss : s * s <= (Rabs t + 1) * (Rabs t + 1)).
  { replace (s * s) with (Rabs s * Rabs s).
    - pose proof (Rabs_pos s). pose proof (Rabs_pos t). nra.
    - rewrite <- Rabs_mult. apply Rabs_right. nra. }
  assert (He : 0 < exp (- (s * s) * (1 + x * x)) <= 1).
  { split; [apply exp_pos|].
    replace (- (s * s) * (1 + x * x)) with (- ((s * s) * (1 + x * x))) by ring.
    apply exp_neg_le_1. nra. }
  rewrite (Rabs_right (exp _)) by lra.
  assert (Ha : Rabs (-2 + 4 * (s * s) * (1 + x * x)) <= 2 + 8 * (s * s)).
  { assert (H1 : 0 <= s * s) by nra.
    assert (H2 : 0 <= x * x <= 1) by nra.
    assert (H3 : 0 <= (s * s) * (x * x) <= s * s).
    { split; [apply Rmult_le_pos; lra|].
      rewrite <- (Rmult_1_r (s * s)) at 2. apply Rmult_le_compat_l; lra. }
    apply Rabs_le. split; lra. }
  pose proof (Rabs_pos (-2 + 4 * (s * s) * (1 + x * x))) as Hp.
  apply Rle_trans with (Rabs (-2 + 4 * (s * s) * (1 + x * x)) * 1).
  - apply Rmult_le_compat_l; lra.
  - lra.
Qed.

Lemma aux_remainder_cont t h c : continuity (aux_remainder t h c).
Proof. unfold aux_remainder, aux_integrand, aux_integrand_dt. reg; intros x; nra. Qed.

Lemma aux_integral_deriv t : derivable_pt_lim aux_integral t (integral_with (aux_integrand_dt t) (aux_integrand_dt_cont t) 0 1).
Proof.
  intros eps Heps.
  set (M := 2 + 8 * ((Rabs t + 1) * (Rabs t + 1))).
  assert (HM : 0 < M) by (unfold M; pose proof (Rabs_pos t); nra).
  assert (Hdelta : 0 < Rmin 1 (eps / (2 * M))).
  { apply Rmin_pos; [lra|]. apply Rdiv_lt_0_compat; lra. }
  exists (mkposreal _ Hdelta). simpl. intros h Hh0 Hh.
  assert (Hh1 : Rabs h < 1) by (eapply Rlt_le_trans; [exact Hh | apply Rmin_l]).
  assert (Hh2 : Rabs h < eps / (2 * M)) by (eapply Rlt_le_trans; [exact Hh | apply Rmin_r]).
  assert (Habs : 0 < Rabs h) by now apply Rabs_pos_lt.
  assert (Heq : (aux_integral (t + h) - aux_integral t) / h - integral_with (aux_integrand_dt t) (aux_integrand_dt_cont t) 0 1
                = integral_with (aux_remainder t h (/ h)) (aux_remainder_cont t h (/ h)) 0 1).
  { rewrite (integral_FTC (aux_remainder t h (/ h)) (aux_remainder_cont t h (/ h))
               (fun y => (integral_with (aux_integrand (t + h)) (aux_integrand_cont (t + h)) 0 y
                          - integral_with (aux_integrand t) (aux_integrand_cont t) 0 y) * / h
                         - integral_with (aux_integrand_dt t) (aux_integrand_dt_cont t) 0 y)).
    - cbv beta. rewrite !integral_same, !aux_integral_unfold. field. exact Hh0.
    - intros x. unfold aux_remainder.
      apply (derivable_pt_lim_minus
               (fun y => (integral_with (aux_integrand (t + h)) (aux_integrand_cont (t + h)) 0 y
                          - integral_with (aux_integrand t) (aux_integrand_cont t) 0 y) * / h)
               (integral_with (aux_integrand_dt t) (aux_integrand_dt_cont t) 0)); [|apply integral_deriv].
      apply derivable_pt_lim_scal_right.
      apply (derivable_pt_lim_minus (integral_with (aux_integrand (t + h)) (aux_integrand_cont (t + h)) 0)
               (integral_with (aux_integrand t) (aux_integrand_cont t) 0)); apply integral_deriv. }
  rewrite Heq.
  apply Rle_lt_trans with (M * Rabs h * (1 - 0)).
  - apply integral_bound; [lra|]. intros x Hx. unfold aux_remainder.
    replace ((aux_integrand (t + h) x - aux_integrand t x) * / h - aux_integrand_dt t x)
      with ((aux_integrand (t + h) x - aux_integrand t x - h * aux_integrand_dt t x) * / h) by (field; exact Hh0).
    rewrite Rabs_mult, Rabs_inv.
    apply Rmult_le_reg_r with (Rabs h); [exact Habs|].
    rewrite Rmult_assoc, Rinv_l, Rmult_1_r by lra.
    replace (M * Rabs h * Rabs h) with (M * (h * h)).
    2:{ rewrite Rmult_assoc. f_equal. rewrite <- Rabs_mult. symmetry. apply Rabs_right. nra. }
    apply (first_order_remainder (fun s => aux_integrand s x) (fun s => aux_integrand_dt s x) (fun s => aux_integrand_dtt s x)).
    + intros s. apply aux_integrand_deriv.
    + intros s. apply aux_integrand_dt_deriv.
    + intros s Hs. apply aux_integrand_dtt_bound; [exact Hx|].
      revert Hs Hh1. unfold Rabs. minmax.
  - rewrite Rminus_0_r, Rmult_1_r.
    apply Rlt_trans with (M * (eps / (2 * M))).
    + apply Rmult_lt_compat_l; assumption.
    + replace (M * (eps / (2 * M))) with (eps / 2) by (field; lra). lra.
Qed.

Lemma gauss_continuity : continuity gauss.
Proof. unfold gauss. reg. Qed.

Lemma gauss_primitive_unfold x :
  gauss_primitive x = integral_with gauss gauss_continuity 0 x.
Proof. apply integral_unfold. Qed.

Lemma gauss_primitive_0 : gauss_primitive 0 = 0.
Proof. rewrite gauss_primitive_unfold. apply integral_same. Qed.

Lemma gauss_primitive_deriv x : derivable_pt_lim gauss_primitive x (gauss x).
Proof.
  apply derivable_pt_lim_ext with (f := integral_with gauss gauss_continuity 0).
  - intros z. symmetry. apply gauss_primitive_unfold.
  - apply integral_deriv.
Qed.

Lemma gauss_product t y : gauss t * gauss (t * y) = exp (- (t * t) * (1 + y * y)).
Proof. unfold gauss. rewrite <- exp_plus. f_equal. ring. Qed.

Lemma aux_integral_deriv_value t :
  integral_with (aux_integrand_dt t) (aux_integrand_dt_cont t) 0 1 = - 2 * gauss t * gauss_primitive t.
Proof.
  rewrite (integral_FTC (aux_integrand_dt t) (aux_integrand_dt_cont t)
             (fun y => - 2 * gauss t * gauss_primitive (t * y))).
  - rewrite Rmult_1_r, Rmult_0_r, gauss_primitive_0. ring.
  - intros y. unfold aux_integrand_dt. rewrite <- gauss_product.
    replace (-2 * t * (gauss t * gauss (t * y)))
      with (- 2 * gauss t * (gauss (t * y) * t)) by ring.
    apply derivable_pt_lim_scal.
    apply (derivable_pt_lim_comp (fun u => t * u) gauss_primitive).
    + assert (pr : derivable_pt (fun u => t * u) y) by reg.
      apply (derive_pt_eq_1 _ _ _ pr). reg.
    + apply gauss_primitive_deriv.
Qed.

Lemma aux_integral_0 : aux_integral 0 = PI / 4.
Proof.
  rewrite aux_integral_unfold, (integral_FTC (aux_integrand 0) (aux_integrand_cont 0) atan).
  - rewrite atan_1, atan_0. ring.
  - intros x. replace (aux_integrand 0 x) with (/ (1 + x ^ 2)).
    + apply derivable_pt_lim_atan.
    + unfold aux_integrand. replace (- (0 * 0) * (1 + x * x)) with 0 by ring.
      rewrite exp_0. field. nra.
Qed.

(** The square of the primitive and the auxiliary integral_with add up to pi/4. *)
Lemma gauss_primitive_sqr t : gauss_primitive t * gauss_primitive t + aux_integral t = PI / 4.
Proof.
  pose proof (same_derivative_same_growth
                (fun s => gauss_primitive s * gauss_primitive s + aux_integral s)
                (fun _ => 0) (fun _ => 0) 0 t) as H.
  cbv beta in H. rewrite gauss_primitive_0, aux_integral_0 in H.
  assert (E : gauss_primitive t * gauss_primitive t + aux_integral t - (0 * 0 + PI / 4) = 0 - 0).
  { apply H.
    - intros x.
      replace 0 with (gauss x * gauss_primitive x + gauss_primitive x * gauss x
                      + integral_with (aux_integrand_dt x) (aux_integrand_dt_cont x) 0 1)
        by (rewrite aux_integral_deriv_value; ring).
      apply (derivable_pt_lim_plus (fun s => gauss_primitive s * gauss_primitive s) aux_integral).
      + apply (derivable_pt_lim_mult gauss_primitive gauss_primitive);
          apply gauss_primitive_deriv.
      + apply aux_integral_deriv.
    - intros x. apply (derivable_pt_lim_const 0). }
  lra.
Qed.

Lemma aux_integral_bounds t : 0 <= aux_integral t <= gauss t.
Proof.
  rewrite aux_integral_unfold. split.
  - apply Rle_trans with (integral_with (fun _ => 0) (const_cont 0) 0 1);
      [rewrite integral_const; lra|].
    apply integral_le; [lra|]. intros x Hx. unfold aux_integrand.
    left. apply Rdiv_lt_0_compat; [apply exp_pos | nra].
  - apply Rle_trans with (integral_with (fun _ => gauss t) (const_cont (gauss t)) 0 1);
      [|rewrite integral_const; lra].
    apply integral_le; [lra|]. intros x Hx. unfold aux_integrand, gauss.
    assert (H1 : exp (- (t * t) * (1 + x * x)) <= exp (- (t * t))).
    { destruct (Req_dec (t * t * (x * x)) 0) as [E|E].
      - right. f_equal. nra.
      - left. apply exp_increasing. nra. }
    pose proof (exp_pos (- (t * t) * (1 + x * x))) as H2.
    apply Rle_trans with (exp (- (t * t) * (1 + x * x)) / 1); [|lra].
    unfold Rdiv. apply Rmult_le_compat_l; [lra|].
    apply Rinv_le_contravar; nra.
Qed.

Lemma gauss_pos x : 0 < gauss x.
Proof. apply exp_pos. Qed.

Lemma gauss_primitive_increasing a b : a < b -> gauss_primitive a < gauss_primitive b.
Proof.
  intros Hab.
  destruct (MVT_cor2 gauss_primitive gauss a b Hab) as (x & Hx & _).
  - intros y _. apply gauss_primitive_deriv.
  - pose proof (gauss_pos x). nra.
Qed.

Lemma gauss_primitive_odd x : gauss_primitive (- x) = - gauss_primitive x.
Proof.
  pose proof (same_derivative_same_growth
                (fun t => gauss_primitive t + gauss_primitive (- t))
                (fun _ => 0) (fun _ => 0) 0 x) as H.
  cbv beta in H. rewrite Ropp_0, gauss_primitive_0 in H.
  assert (E : gauss_primitive x + gauss_primitive (- x) - (0 + 0) = 0 - 0).
  { apply H.
    - intros y. replace 0 with (gauss y + gauss (- y) * (- 1)).
      2:{ unfold gauss. replace (- y * - y) with (y * y) by ring. ring. }
      apply (derivable_pt_lim_plus gauss_primitive (fun t => gauss_primitive (- t))).
      + apply gauss_primitive_deriv.
      + apply (derivable_pt_lim_comp (fun t => - t) gauss_primitive).
        * apply (derivable_pt_lim_opp (fun t => t)), derivable_pt_lim_id.
        * apply gauss_primitive_deriv.
    - intros y. apply (derivable_pt_lim_const 0). }
  lra.
Qed.

Lemma gauss_small x : x <> 0 -> gauss x < / Rabs x.
Proof.
  intros Hx. unfold gauss. rewrite exp_Ropp.
  assert (Ha : 0 < Rabs x) by now apply Rabs_pos_lt.
  apply Rinv_lt_contravar.
  - apply Rmult_lt_0_compat; [exact Ha | apply exp_pos].
  - apply Rlt_le_trans with (1 + x * x); [|apply exp_ineq1_le].
    replace (x * x) with (Rabs x * Rabs x); [nra|].
    rewrite <- Rabs_mult. apply Rabs_right. nra.
Qed.

(** ** The error function at minus infinity *)

Lemma sqrt_PI_pos : 0 < sqrt PI.
Proof. apply sqrt_lt_R0, PI_RGT_0. Qed.

Lemma math_erf_deriv x : derivable_pt_lim math_erf x (2 / sqrt PI * exp (- (x * x))).
Proof. apply derivable_pt_lim_scal, gauss_primitive_deriv. Qed.

Lemma math_erf_0 : math_erf 0 = 0.
Proof. unfold math_erf. rewrite gauss_primitive_0. ring. Qed.

Lemma math_erf_odd x : math_erf (- x) = - math_erf x.
Proof. unfold math_erf. rewrite gauss_primitive_odd. ring. Qed.

Lemma math_erf_sqr x : math_erf x * math_erf x = 1 - 4 / PI * aux_integral x.
Proof.
  pose proof (gauss_primitive_sqr x) as H. pose proof sqrt_PI_pos as Hs.
  pose proof PI_RGT_0 as Hpi.
  unfold math_erf.
  replace (2 / sqrt PI * gauss_primitive x * (2 / sqrt PI * gauss_primitive x))
    with (4 / (sqrt PI * sqrt PI) * (gauss_primitive x * gauss_primitive x))
    by (field; lra).
  rewrite sqrt_sqrt by lra.
  replace (gauss_primitive x * gauss_primitive x) with (PI / 4 - aux_integral x) by lra.
  field. lra.
Qed.

(** It tends to -1 at minus infinity. *)
Lemma math_erf_limit eps :
  0 < eps -> exists A, forall x, x < A -> Rabs (math_erf x + 1) < eps.
Proof.
  intros Heps. pose proof PI_RGT_0 as Hpi.
  exists (- (4 / (PI * eps)) - 1). intros x Hx.
  assert (Hq : 0 < 4 / (PI * eps)).
  { apply Rdiv_lt_0_compat; [lra | nra]. }
  assert (Hneg : x < 0) by lra.
  assert (Hu : math_erf x < 0).
  { unfold math_erf. pose proof (gauss_primitive_increasing x 0 Hneg) as Hi.
    rewrite gauss_primitive_0 in Hi. pose proof sqrt_PI_pos.
    assert (0 < 2 / sqrt PI) by (apply Rdiv_lt_0_compat; lra). nra. }
  pose proof (math_erf_sqr x) as Hsq. pose proof (aux_integral_bounds x) as [HB0 HB1].
  assert (Hg : gauss x < / Rabs x) by (apply gauss_small; lra).
  assert (Hinv : / Rabs x < PI * eps / 4).
  { rewrite Rabs_left by lra.
    replace (PI * eps / 4) with (/ (4 / (PI * eps))) by (field; split; lra).
    apply Rinv_lt_contravar; [|lra].
    apply Rmult_lt_0_compat; lra. }
  assert (HB : 4 / PI * aux_integral x < eps).
  { apply Rle_lt_trans with (4 / PI * gauss x).
    - apply Rmult_le_compat_l; [|lra]. left. apply Rdiv_lt_0_compat; lra.
    - apply Rlt_le_trans with (4 / PI * (PI * eps / 4)).
      + apply Rmult_lt_compat_l; [apply Rdiv_lt_0_compat; lra | lra].
      + right. field. lra. }
  assert (H4 : 0 <= 4 / PI * aux_integral x).
  { apply Rmult_le_pos; [left; apply Rdiv_lt_0_compat; lra | exact HB0]. }
  (* u = - math_erf x is in (0, 1], so 1 - u <= 1 - u * u = 4 / PI * aux_integral x *)
  assert (Hle1 : - 1 <= math_erf x) by nra.
  apply Rabs_def1; [|lra].
  assert (math_erf x + 1 <= 1 - math_erf x * math_erf x) by nra.
  lra.
Qed.

Lemma math_erf_is_error_function : error_function math_erf.
Proof.
  split.
  - exists (2 / sqrt PI). split.
    + apply Rdiv_lt_0_compat; [lra | apply sqrt_PI_pos].
    + apply math_erf_deriv.
  - apply math_erf_limit.
Qed.

(** ** A distribution function with a Gaussian density

    [F] has the derivative [c * exp(-x^2/2)] and tends to 0 at minus
    infinity.  Then [F(x) * exp(x^2/2)] is nondecreasing, which compares
    [F(d - v)] with [F(d)]. *)

Section NormalCdf.

Variable F : R -> R.
Variable c : R.
Hypothesis c_pos : 0 < c.

Hypothesis F_deriv : forall x, derivable_pt_lim F x (dens c x).
Hypothesis F_limit :
  forall eps, 0 < eps -> exists A, forall x, x < A -> Rabs (F x) < eps.

Lemma dens_pos x : 0 < dens c x.
Proof. unfold dens. apply Rmult_lt_0_compat; [exact c_pos | apply exp_pos]. Qed.

Lemma half_sqr_deriv s x : derivable_pt_lim (fun t => s * (t * t) / 2) x (s * x).
Proof.
  replace (s * x) with (s / 2 * (1 * x + x * 1)) by field.
  apply derivable_pt_lim_ext with (f := fun t => s / 2 * ((fun u => u) t * (fun u => u) t)).
  - intros z. field.
  - apply derivable_pt_lim_scal.
    apply (derivable_pt_lim_mult (fun u => u) (fun u => u)); apply derivable_pt_lim_id.
Qed.

Lemma exp_half_sqr_deriv s x :
  derivable_pt_lim (fun t => exp (s * (t * t) / 2)) x (s * x * exp (s * (x * x) / 2)).
Proof.
  rewrite (Rmult_comm (s * x)).
  apply (derivable_pt_lim_comp (fun t => s * (t * t) / 2) exp).
  - apply half_sqr_deriv.
  - apply derivable_pt_lim_exp.
Qed.

Lemma dens_deriv x : derivable_pt_lim (dens c) x (- x * dens c x).
Proof.
  unfold dens.
  replace (- x * (c * exp (- (x * x) / 2)))
    with (c * (-1 * x * exp (-1 * (x * x) / 2))).
  2:{ replace (-1 * (x * x) / 2) with (- (x * x) / 2) by field. ring. }
  apply derivable_pt_lim_ext with (f := fun t => c * (fun u => exp (-1 * (u * u) / 2)) t).
  - intros z. simpl. f_equal. f_equal. field.
  - apply derivable_pt_lim_scal. apply exp_half_sqr_deriv.
Qed.

Lemma cdf_increasing a b : a < b -> F a < F b.
Proof.
  intros Hab.
  destruct (MVT_cor2 F (dens c) a b Hab) as (x & Hx & _).
  - intros y _. apply F_deriv.
  - pose proof (dens_pos x). nra.
Qed.

Lemma cdf_nonneg x : 0 <= F x.
Proof.
  destruct (Rle_dec 0 (F x)) as [H|H]; [exact H | exfalso].
  assert (Hneg : 0 < - F x) by lra.
  destruct (F_limit (- F x) Hneg) as (A & HA).
  set (a := Rmin A x - 1).
  assert (Ha1 : a < A) by (unfold a; pose proof (Rmin_l A x); lra).
  assert (Ha2 : a < x) by (unfold a; pose proof (Rmin_r A x); lra).
  pose proof (HA a Ha1) as Hb. pose proof (cdf_increasing a x Ha2) as Hi.
  apply Rabs_def2 in Hb. lra.
Qed.

Lemma cdf_plus_ratio_deriv t :
  t <> 0 ->
  derivable_pt_lim (fun u => F u + dens c u / u) t (- dens c t / (t * t)).
Proof.
  intros Ht.
  replace (- dens c t / (t * t))
    with (dens c t + (- t * dens c t * t - 1 * dens c t) / Rsqr t)
    by (unfold Rsqr; field; exact Ht).
  apply (derivable_pt_lim_plus F (fun u => dens c u / u)); [apply F_deriv|].
  apply (derivable_pt_lim_div (dens c) (fun u => u)).
  - apply dens_deriv.
  - apply derivable_pt_lim_id.
  - exact Ht.
Qed.

Lemma cdf_plus_ratio_decreasing a b :
  a < b -> b < 0 -> F b + dens c b / b <= F a + dens c a / a.
Proof.
  intros Hab Hb.
  destruct (MVT_cor2 (fun u => F u + dens c u / u) (fun t => - dens c t / (t * t)) a b Hab)
    as (x & Hx & Hax).
  - intros y Hy. apply cdf_plus_ratio_deriv. lra.
  - assert (Hd : - dens c x / (x * x) < 0).
    { apply Rdiv_neg_pos; [pose proof (dens_pos x); lra | nra]. }
    nra.
Qed.

Lemma dens_plus_x_cdf_nonneg x : 0 <= dens c x + x * F x.
Proof.
  pose proof (dens_pos x) as Hd. pose proof (cdf_nonneg x) as HF.
  destruct (Rle_dec 0 x) as [Hx|Hx]; [nra|].
  assert (Hneg : x < 0) by lra.
  assert (Hk : F x + dens c x / x <= 0).
  { apply le_epsilon. intros eps Heps. rewrite Rplus_0_l.
    destruct (F_limit eps Heps) as (A & HA).
    set (a := Rmin A x - 1).
    assert (Ha1 : a < A) by (unfold a; pose proof (Rmin_l A x); lra).
    assert (Ha2 : a < x) by (unfold a; pose proof (Rmin_r A x); lra).
    pose proof (HA a Ha1) as Hb. apply Rabs_def2 in Hb.
    pose proof (cdf_plus_ratio_decreasing a x Ha2 Hneg) as Hdec.
    assert (Hda : dens c a / a < 0).
    { apply Rdiv_pos_neg; [apply dens_pos | lra]. }
    lra. }
  assert (E : dens c x + x * F x = x * (F x + dens c x / x)) by (field; lra).
  rewrite E. nra.
Qed.

Lemma cdf_times_exp_deriv x :
  derivable_pt_lim (fun t => F t * exp (t * t / 2)) x
    (exp (x * x / 2) * (dens c x + x * F x)).
Proof.
  replace (exp (x * x / 2) * (dens c x + x * F x))
    with (dens c x * exp (1 * (x * x) / 2) + F x * (1 * x * exp (1 * (x * x) / 2))).
  2:{ replace (1 * (x * x) / 2) with (x * x / 2) by field. ring. }
  apply derivable_pt_lim_ext with (f := fun t => F t * (fun u => exp (1 * (u * u) / 2)) t).
  - intros z. simpl. f_equal. f_equal. field.
  - apply (derivable_pt_lim_mult F (fun u => exp (1 * (u * u) / 2))).
    + apply F_deriv.
    + apply exp_half_sqr_deriv.
Qed.



End NormalCdf.

(** ** The price is nonnegative *)

Section PriceSign.

Variable erf : R -> R.
Hypothesis erf_is_error_function : error_function erf.

Lemma spec_N_deriv c x :
  (forall y, derivable_pt_lim erf y (c * exp (- (y * y)))) ->
  derivable_pt_lim (spec_N erf) x (dens (c / (2 * sqrt 2)) x).
Proof.
  intros Hc. pose proof sqrt2_neq_0 as Hs2.
  assert (Hsq : sqrt 2 * sqrt 2 = 2) by (apply sqrt_sqrt; lra).
  unfold spec_N, dens.
  replace (c / (2 * sqrt 2) * exp (- (x * x) / 2))
    with (0.5 * (0 + c * exp (- (x / sqrt 2 * (x / sqrt 2))) * (/ sqrt 2 * 1))).
  2:{ replace (x / sqrt 2 * (x / sqrt 2)) with (x * x / 2).
      - replace (- (x * x) / 2) with (- (x * x / 2)) by field.
        replace 0.5 with (/ 2) by lra. field. exact Hs2.
      - replace (x / sqrt 2 * (x / sqrt 2)) with (x * x / (sqrt 2 * sqrt 2))
          by (field; exact Hs2).
        now rewrite Hsq. }
  apply derivable_pt_lim_scal.
  apply (derivable_pt_lim_plus (fun _ => 1) (fun t => erf (t / sqrt 2))).
  - apply (derivable_pt_lim_const 1).
  - apply (derivable_pt_lim_comp (fun t => t / sqrt 2) erf).
    + apply derivable_pt_lim_ext with (f := fun t => / sqrt 2 * (fun u => u) t).
      * intros z. field. exact Hs2.
      * apply derivable_pt_lim_scal, derivable_pt_lim_id.
    + apply Hc.
Qed.

Lemma spec_N_limit eps :
  0 < eps -> exists A, forall x, x < A -> Rabs (spec_N erf x) < eps.
Proof.
  intros Heps. destruct erf_is_error_function as [_ Hlim].
  destruct (Hlim eps Heps) as (A & HA).
  assert (Hs2 : 0 < sqrt 2) by (apply sqrt_lt_R0; lra).
  exists (A * sqrt 2). intros x Hx.
  assert (Hy : x / sqrt 2 < A).
  { apply Rmult_lt_reg_r with (sqrt 2); [exact Hs2|].
    unfold Rdiv. rewrite Rmult_assoc, Rinv_l by lra. lra. }
  specialize (HA _ Hy). unfold spec_N.
  apply Rabs_def2 in HA. apply Rabs_def1; lra.
Qed.



End PriceSign.


(** ** Arrays: columns and shapes *)

Lemma get_col_ok {A} (d : A) (M : ndarray A) t :
  (t < shape1 M)%nat -> get_col d M t = Ok (map (fun row => nth t row d) (data M)).
Proof. intros H. unfold get_col. destruct (decide (t < shape1 M)%nat); [reflexivity | lia]. Qed.

Lemma set_col_ok {A} (M : ndarray A) t col :
  (t < shape1 M)%nat ->
  set_col M t col
  = Ok (NdArray (shape0 M) (shape1 M) (zip_with (fun row v => <[t:=v]> row) (data M) col)).
Proof. intros H. unfold set_col. destruct (decide (t < shape1 M)%nat); [reflexivity | lia]. Qed.

Lemma zip_with_insert_shape {A} (t n : nat) (rows : list (list A)) (col : list A) :
  Forall (fun row => length row = n) rows ->
  Forall (fun row => length row = n) (zip_with (fun row v => <[t:=v]> row) rows col).
Proof.
  intros H. revert col. induction H as [|row rows Hrow _ IH]; intros [|v col]; simpl;
    try constructor.
  - now rewrite length_insert.
  - apply IH.
Qed.

Lemma zip_with_insert_keeps {A} (t j : nat) (x : A) (rows : list (list A)) (col : list A) :
  t <> j ->
  Forall (fun row => row !! j = Some x) rows ->
  Forall (fun row => row !! j = Some x) (zip_with (fun row v => <[t:=v]> row) rows col).
Proof.
  intros Hne H. revert col. induction H as [|row rows Hrow _ IH]; intros [|v col]; simpl;
    try constructor.
  - rewrite list_lookup_insert_ne; assumption.
  - apply IH.
Qed.

Lemma well_shaped_set_col {A} (M M' : ndarray A) t col :
  well_shaped M -> length col = shape0 M -> set_col M t col = Ok M' ->
  well_shaped M' /\ shape0 M' = shape0 M /\ shape1 M' = shape1 M.
Proof.
  intros [Hlen Hrows] Hcol Hset. unfold set_col in Hset.
  destruct (decide (t < shape1 M)%nat); [|discriminate].
  injection Hset as <-. simpl. repeat split; simpl.
  - rewrite length_zip_with. lia.
  - now apply zip_with_insert_shape.
Qed.

Lemma well_shaped_zeros_like {A} (Z : ndarray A) : well_shaped (np_zeros_like Z).
Proof.
  split; simpl.
  - apply length_replicate.
  - apply Forall_replicate, length_replicate.
Qed.

Lemma starts_at_set_col0 (M M' : ndarray float64) S0 :
  well_shaped M -> set_col M 0 (replicate (shape0 M) (Num S0)) = Ok M' ->
  starts_at S0 M'.
Proof.
  intros [Hlen Hrows] Hset. unfold set_col in Hset.
  destruct (decide (0 < shape1 M)%nat) as [Hpos|]; [|discriminate].
  injection Hset as <-. unfold starts_at. simpl.
  rewrite zip_with_replicate_r_eq by assumption.
  apply Forall_fmap. eapply Forall_impl; [exact Hrows|].
  intros row Hrow. simpl in *. apply list_lookup_insert_eq. lia.
Qed.

Lemma starts_at_set_col (M M' : ndarray float64) S0 t col :
  (0 < t)%nat -> starts_at S0 M -> set_col M t col = Ok M' -> starts_at S0 M'.
Proof.
  intros Ht Hs Hset. unfold set_col in Hset.
  destruct (decide (t < shape1 M)%nat); [|discriminate].
  injection Hset as <-. unfold starts_at. simpl.
  apply zip_with_insert_keeps; [lia | exact Hs].
Qed.

Lemma for_each_invariant {A St} (I : St -> Prop) (P : A -> Prop)
    (body : A -> St -> result St) (xs : list A) (s : St) :
  (forall x s0, P x -> I s0 -> exists s1, body x s0 = Ok s1 /\ I s1) ->
  Forall P xs -> I s ->
  exists s', for_each body xs s = Ok s' /\ I s'.
Proof.
  intros Hbody Hxs. revert s. induction Hxs as [|x xs Hx _ IH]; intros s Hs; simpl.
  - exists s. split; [reflexivity | assumption].
  - destruct (Hbody x s Hx Hs) as (s1 & -> & Hs1). simpl. apply IH, Hs1.
Qed.

(** ** The barrier check against the specification's words *)

Lemma np_ge_reaches threshold v : np_ge v threshold = true <-> reaches threshold v.
Proof.
  unfold reaches. destruct v as [x|]; simpl.
  - unfold Rle_bool. destruct (Rle_dec threshold x) as [Hle|Hnle].
    + split; [intros _; eauto | reflexivity].
    + split; [discriminate | intros (y & [= <-] & Hy); contradiction].
  - split; [discriminate | intros (y & [=] & _)].
Qed.

Lemma row_any_hits threshold (row : list float64) :
  existsb (fun b : bool => b) (map (fun v => np_ge v threshold) row) = true
  <-> path_hits threshold row.
Proof.
  unfold path_hits. induction row as [|v row IH]; simpl.
  - split; [discriminate | intros (i & w & Hi & _); destruct i; discriminate].
  - rewrite orb_true_iff, IH, np_ge_reaches. split.
    + intros [Hv | (i & w & Hi & Hw)].
      * exists O, v. split; [reflexivity | assumption].
      * exists (S i), w. split; assumption.
    + intros (i & w & Hi & Hw). destruct i as [|i]; simpl in Hi.
      * injection Hi as ->. now left.
      * right. eauto.
Qed.

Lemma row_first_true threshold (row : list float64) i :
  first_true (map (fun v => np_ge v threshold) row) = Some i -> first_hit threshold row i.
Proof.
  revert i. induction row as [|v row IH]; intros i; simpl; [discriminate|].
  destruct (np_ge v threshold) eqn:Hv.
  - intros [= <-]. split.
    + exists v. split; [reflexivity | now apply np_ge_reaches].
    + intros j w Hj. lia.
  - destruct (first_true (map (fun v0 => np_ge v0 threshold) row)) as [k|] eqn:Hk;
      simpl; [|discriminate].
    intros [= <-]. destruct (IH k eq_refl) as [(w & Hw & Hr) Hbefore]. split.
    + exists w. split; assumption.
    + intros [|j] u Hj Hu; simpl in Hu.
      * injection Hu as <-. rewrite <- np_ge_reaches, Hv. discriminate.
      * apply (Hbefore j u); [lia | assumption].
Qed.

Lemma row_first_true_hits threshold (row : list float64) :
  path_hits threshold row ->
  exists i, first_true (map (fun v => np_ge v threshold) row) = Some i.
Proof.
  rewrite <- row_any_hits. induction row as [|v row IH]; simpl; [discriminate|].
  destruct (np_ge v threshold); simpl.
  - intros _. now exists O.
  - intros H. destruct (IH H) as (i & ->). now exists (S i).
Qed.

(** The mask selection of the first-hit indices, scaled by [dt], lists the
    hit times of the hitting paths. *)
Lemma hit_times_spec threshold dt (rows : list (list float64)) :
  let B := map (map (fun v => np_ge v threshold)) rows in
  spec_hit_times threshold dt rows
    (map (fun i => INR i * dt)
       (mask_select (np_any_axis1 B) (map (fun b => default O (first_true b)) B))).
Proof.
  induction rows as [|row rows IH]; simpl; [constructor|].
  destruct (existsb (fun b : bool => b) (map (fun v => np_ge v threshold) row)) eqn:Hany.
  - simpl. apply row_any_hits in Hany.
    destruct (row_first_true_hits _ _ Hany) as (i & Hi). rewrite Hi. simpl.
    constructor; [now apply row_first_true | exact IH].
  - apply sht_miss; [|exact IH].
    rewrite <- row_any_hits, Hany. discriminate.
Qed.

Lemma payoff_spec threshold K (rows : list (list float64)) :
  Forall2 (spec_payoff threshold K) rows
    (map (fun h : bool => if h then threshold - K else 0)
       (np_any_axis1 (map (map (fun v => np_ge v threshold)) rows))).
Proof.
  induction rows as [|row rows IH]; simpl; constructor; [|exact IH].
  unfold spec_payoff.
  destruct (existsb (fun b : bool => b) (map (fun v => np_ge v threshold) row)) eqn:Hany.
  - left. split; [now apply row_any_hits | reflexivity].
  - right. split; [|reflexivity]. rewrite <- row_any_hits, Hany. discriminate.
Qed.

Lemma spec_hit_times_none threshold dt rows ts :
  spec_hit_times threshold dt rows ts ->
  Forall (fun row => ~ path_hits threshold row) rows -> ts = [].
Proof.
  induction 1 as [|row rows i ts Hfirst _ IH|row rows ts Hmiss _ IH]; intros Hall.
  - reflexivity.
  - exfalso. apply Forall_cons in Hall as [Hrow _]. apply Hrow.
    destruct Hfirst as [(v & Hv & Hr) _]. now exists i, v.
  - apply IH. now apply Forall_cons in Hall as [_ Hall].
Qed.

Lemma spec_hit_times_some threshold dt rows ts :
  spec_hit_times threshold dt rows ts ->
  Exists (path_hits threshold) rows -> ts <> [].
Proof.
  induction 1 as [|row rows i ts Hfirst _ IH|row rows ts Hmiss _ IH]; intros Hex.
  - inversion Hex.
  - discriminate.
  - apply IH. apply Exists_cons in Hex as [Hrow | Hex]; [contradiction | assumption].
Qed.

(** ** Sums and means over the hit mask *)

Lemma np_mean_nonempty (l : list R) : l <> [] -> np_mean l = Num (spec_mean l).
Proof. destruct l; [contradiction | reflexivity]. Qed.

Lemma Rsum_bool_bounds (m : list bool) : 0 <= Rsum (map bool_R m) <= INR (length m).
Proof.
  induction m as [|b m IH]; [simpl; lra|].
  change (0 <= bool_R b + Rsum (map bool_R m) <= INR (S (length m))).
  rewrite S_INR. destruct b; simpl; lra.
Qed.

Lemma Rsum_bool_all (m : list bool) :
  Forall (fun b => b = true) m -> Rsum (map bool_R m) = INR (length m).
Proof.
  induction 1 as [|b m Hb _ IH]; [reflexivity|].
  change (bool_R b + Rsum (map bool_R m) = INR (S (length m))).
  rewrite S_INR, IH, Hb. simpl. lra.
Qed.

Lemma Rsum_bool_some (m : list bool) :
  Exists (fun b => b = true) m -> 1 <= Rsum (map bool_R m).
Proof.
  induction 1 as [b m Hb | b m _ IH];
    change (1 <= bool_R b + Rsum (map bool_R m)).
  - pose proof (Rsum_bool_bounds m). rewrite Hb. simpl. lra.
  - pose proof (Rsum_bool_bounds m). destruct b; simpl; lra.
Qed.

Lemma Rsum_bool_le (m2 m1 : list bool) :
  Forall2 (fun b2 b1 => b2 = true -> b1 = true) m2 m1 ->
  Rsum (map bool_R m2) <= Rsum (map bool_R m1).
Proof.
  induction 1 as [|b2 b1 m2 m1 Hb _ IH]; [simpl; lra|].
  change (bool_R b2 + Rsum (map bool_R m2) <= bool_R b1 + Rsum (map bool_R m1)).
  destruct b2, b1; simpl; try lra; specialize (Hb eq_refl); discriminate.
Qed.

Lemma Rsum_payoff (c : R) (m : list bool) :
  Rsum (map (fun h : bool => if h then c else 0) m) = Rsum (map bool_R m) * c.
Proof.
  induction m as [|b m IH]; [simpl; lra|].
  change ((if b then c else 0) + Rsum (map (fun h : bool => if h then c else 0) m)
          = (bool_R b + Rsum (map bool_R m)) * c).
  rewrite IH. destruct b; simpl; lra.
Qed.

Lemma hit_mask_length (Sm : ndarray float64) threshold :
  length (np_any_axis1 (ge_mask Sm threshold)) = length (data Sm).
Proof. unfold np_any_axis1, ge_mask. now rewrite !length_map. Qed.

Lemma hit_mask_mono t1 t2 (rows : list (list float64)) :
  t1 <= t2 ->
  Forall2 (fun b2 b1 => b2 = true -> b1 = true)
    (np_any_axis1 (map (map (fun v => np_ge v t2)) rows))
    (np_any_axis1 (map (map (fun v => np_ge v t1)) rows)).
Proof.
  intros Ht. induction rows as [|row rows IH]; simpl; constructor; [|exact IH].
  rewrite !row_any_hits. intros (i & v & Hi & x & -> & Hx).
  exists i, (Num x). split; [assumption|]. exists x. split; [reflexivity | lra].
Qed.

Lemma hit_mask_all threshold S0 (rows : list (list float64)) :
  threshold <= S0 ->
  Forall (fun row => row !! O = Some (Num S0)) rows ->
  Forall (fun b => b = true) (np_any_axis1 (map (map (fun v => np_ge v threshold)) rows)).
Proof.
  intros Ht. induction 1 as [|row rows Hrow _ IH]; simpl; constructor; [|exact IH].
  apply row_any_hits. exists O, (Num S0). split; [assumption|].
  exists S0. split; [reflexivity | assumption].
Qed.

Lemma hit_mask_some threshold (rows : list (list float64)) :
  Exists (path_hits threshold) rows ->
  Exists (fun b => b = true) (np_any_axis1 (map (map (fun v => np_ge v threshold)) rows)).
Proof.
  induction 1 as [row rows Hrow | row rows _ IH]; simpl.
  - apply Exists_cons_hd. now apply row_any_hits.
  - apply Exists_cons_tl, IH.
Qed.

Lemma reduce_paths_ok (Sm : ndarray float64) K T r threshold dt :
  shape1 Sm <> O ->
  let hit_mask := np_any_axis1 (ge_mask Sm threshold) in
  let hit_times :=
    map (fun i => INR i * dt)
      (mask_select hit_mask
         (map (fun b => default O (first_true b)) (ge_mask Sm threshold))) in
  reduce_paths Sm K T r threshold dt
  = Ok (np_mean (map bool_R hit_mask),
        (if decide (0 < length hit_times)%nat then Some (np_mean hit_times) else None),
        np_mul (np_mean (map (fun h : bool => if h then threshold - K else 0) hit_mask))
               (Num (exp (- r * T)))).
Proof.
  intros Hcols. unfold reduce_paths, np_argmax_axis1.
  destruct (decide (shape1 Sm = O)); [contradiction | reflexivity].
Qed.

Lemma first_hit_unique threshold (path : list float64) i j :
  first_hit threshold path i -> first_hit threshold path j -> i = j.
Proof.
  intros [(v & Hv & Hrv) Hi] [(w & Hw & Hrw) Hj].
  destruct (Nat.lt_trichotomy i j) as [Hlt | [Heq | Hgt]]; [|exact Heq|].
  - exfalso. exact (Hj i v Hlt Hv Hrv).
  - exfalso. exact (Hi j w Hgt Hw Hrw).
Qed.

(** The hit times are determined by the paths. *)
Lemma spec_hit_times_functional threshold dt rows ts ts' :
  spec_hit_times threshold dt rows ts -> spec_hit_times threshold dt rows ts' -> ts = ts'.
Proof.
  intros H. revert ts'.
  induction H as [|row rows i ts Hfirst _ IH|row rows ts Hmiss _ IH];
    intros ts' H'; inversion H' as [|row' rows' j ts0 Hfirst' Hrest|row' rows' ts0 Hmiss' Hrest];
    subst.
  - reflexivity.
  - rewrite (first_hit_unique _ _ _ _ Hfirst Hfirst'). f_equal. now apply IH.
  - exfalso. apply Hmiss'. destruct Hfirst as [(v & Hv & Hr) _]. now exists i, v.
  - exfalso. apply Hmiss. destruct Hfirst' as [(v & Hv & Hr) _]. now exists j, v.
  - now apply IH.
Qed.

(** ** The generator and the paths *)

Section SimulatorFacts.

Variable rng_state : Type.
Variable np_random_seed : Z -> rng_state.
Variable legacy_gauss : rng_state -> R * rng_state.

Lemma draw_row_length g m : length (fst (draw_row legacy_gauss g m)) = m.
Proof.
  revert g. induction m as [|m IH]; intros g; simpl; [reflexivity|].
  destruct (legacy_gauss g) as [z g1]. specialize (IH g1).
  destruct (draw_row legacy_gauss g1 m) as [zs g2]. simpl in *. now rewrite IH.
Qed.

Lemma draw_rows_shape g n m :
  length (fst (draw_rows legacy_gauss g n m)) = n /\
  Forall (fun row => length row = m) (fst (draw_rows legacy_gauss g n m)).
Proof.
  revert g. induction n as [|n IH]; intros g; simpl; [split; [reflexivity | constructor]|].
  pose proof (draw_row_length g m) as Hrow.
  destruct (draw_row legacy_gauss g m) as [row g1]. specialize (IH g1).
  destruct (draw_rows legacy_gauss g1 n m) as [rows g2]. simpl in *. destruct IH as [IH1 IH2].
  split; [now rewrite IH1 | now constructor].
Qed.

Lemma np_random_normal_ok g n m :
  (0 <= n)%Z -> (0 <= m)%Z ->
  exists Zs, fst (np_random_normal legacy_gauss g n m) = Ok Zs /\ well_shaped Zs /\
             shape0 Zs = Z.to_nat n /\ shape1 Zs = Z.to_nat m.
Proof.
  intros Hn Hm. unfold np_random_normal.
  destruct (decide (n < 0 \/ m < 0)%Z) as [[?|?]|_]; [lia | lia |].
  pose proof (draw_rows_shape g (Z.to_nat n) (Z.to_nat m)) as [H1 H2].
  destruct (draw_rows legacy_gauss g (Z.to_nat n) (Z.to_nat m)) as [rows g']. simpl in *.
  eexists. split; [reflexivity|]. repeat split; assumption.
Qed.

Lemma np_random_normal_negative g n m :
  (n < 0 \/ m < 0)%Z -> np_random_normal legacy_gauss g n m = (Raise ValueError, g).
Proof.
  intros H. unfold np_random_normal.
  destruct (decide (n < 0 \/ m < 0)%Z); [reflexivity | contradiction].
Qed.

Lemma gbm_step_ok S0 r q sigma dt (Zs : ndarray R) t (Sm : ndarray float64) :
  well_shaped Zs -> (1 <= t < shape1 Zs)%nat ->
  well_shaped Sm /\ shape0 Sm = shape0 Zs /\ shape1 Sm = shape1 Zs /\ starts_at S0 Sm ->
  exists Sm', gbm_step r q sigma dt Zs t Sm = Ok Sm' /\
    (well_shaped Sm' /\ shape0 Sm' = shape0 Zs /\ shape1 Sm' = shape1 Zs /\ starts_at S0 Sm').
Proof.
  intros HZ Ht (HS & H0 & H1 & Hstart). unfold gbm_step.
  rewrite get_col_ok by lia. simpl.
  rewrite get_col_ok by lia. simpl.
  match goal with |- context [set_col Sm t ?c] => set (col := c) end.
  assert (Hcol : length col = shape0 Sm).
  { subst col. rewrite length_zip_with, !length_map.
    destruct HS as [-> _], HZ as [-> _]. lia. }
  destruct (set_col Sm t col) as [Sm'|e] eqn:Hset.
  - exists Sm'. split; [reflexivity|].
    destruct (well_shaped_set_col _ _ _ _ HS Hcol Hset) as (Hw & E0 & E1).
    repeat split; try apply Hw; try congruence.
    eapply starts_at_set_col; [|exact Hstart|exact Hset]. lia.
  - rewrite set_col_ok in Hset by lia. discriminate.
Qed.

Lemma build_paths_ok S0 r q sigma dt (n_steps : Z) (Zs : ndarray R) :
  well_shaped Zs -> (1 <= n_steps)%Z -> shape1 Zs = Z.to_nat n_steps ->
  exists Sm, build_paths S0 r q sigma dt n_steps Zs = Ok Sm /\
    (well_shaped Sm /\ shape0 Sm = shape0 Zs /\ shape1 Sm = shape1 Zs /\ starts_at S0 Sm).
Proof.
  intros HZ Hpos Hshape. unfold build_paths.
  pose proof (well_shaped_zeros_like Zs) as Hz.
  destruct (set_col (np_zeros_like Zs) 0 _) as [Sm0|e] eqn:Hset.
  2:{ rewrite set_col_ok in Hset by (simpl; lia). discriminate. }
  simpl.
  destruct (well_shaped_set_col _ _ _ _ Hz (length_replicate _ _) Hset) as (Hw & E0 & E1).
  apply for_each_invariant with (P := fun t => (1 <= t < shape1 Zs)%nat).
  - intros t Sm Ht HI. now apply gbm_step_ok.
  - apply Forall_forall. intros t Hin. apply elem_of_seq in Hin. lia.
  - repeat split; try apply Hw; try assumption.
    eapply starts_at_set_col0; [exact Hz | exact Hset].
Qed.

Lemma IZR_steps_neq_0 (n_steps : Z) : (n_steps <> 0)%Z -> IZR n_steps <> 0.
Proof. intros H. now apply not_0_IZR. Qed.

Lemma simulate_paths_ok g S0 T r sigma q n_paths n_steps :
  (0 <= n_paths)%Z -> (1 <= n_steps)%Z ->
  exists Sm, fst (simulate_paths np_random_seed legacy_gauss g S0 T r sigma q n_paths n_steps)
             = Ok (T / IZR n_steps, Sm) /\
    well_shaped Sm /\ shape0 Sm = Z.to_nat n_paths /\ shape1 Sm = Z.to_nat n_steps /\
    starts_at S0 Sm.
Proof.
  intros Hp Hs. unfold simulate_paths.
  rewrite py_div_ok by (apply IZR_steps_neq_0; lia).
  destruct (np_random_normal_ok (np_random_seed 42) n_paths n_steps)
    as (Zs & HZ & Hw & E0 & E1); [lia | lia |].
  destruct (np_random_normal legacy_gauss (np_random_seed 42) n_paths n_steps) as [rz g'].
  simpl in HZ. subst rz.
  destruct (build_paths_ok S0 r q sigma (T / IZR n_steps) n_steps Zs Hw)
    as (Sm & -> & HwS & F0 & F1 & Hst); [lia | exact E1 |].
  simpl. exists Sm. repeat split; try apply HwS; congruence.
Qed.

(** The simulator's result is the reduction of the simulated paths. *)
Lemma monte_carlo_option_hit_unfold g S0 K T r sigma threshold q n_paths n_steps :
  fst (monte_carlo_option_hit np_random_seed legacy_gauss
         g S0 K T r sigma threshold q n_paths n_steps)
  = (p <-! fst (simulate_paths np_random_seed legacy_gauss g S0 T r sigma q n_paths n_steps);
     reduce_paths (snd p) K T r threshold (fst p)).
Proof.
  unfold monte_carlo_option_hit.
  destruct (simulate_paths np_random_seed legacy_gauss g S0 T r sigma q n_paths n_steps)
    as [paths g'].
  reflexivity.
Qed.

(** ** The simulator's results *)

(** The generator is re-seeded before the first draw, so the paths do not
    depend on the state the call starts from. *)
Lemma simulate_paths_reseeds g1 g2 S0 T r sigma q n_paths n_steps :
  fst (simulate_paths np_random_seed legacy_gauss g1 S0 T r sigma q n_paths n_steps)
  = fst (simulate_paths np_random_seed legacy_gauss g2 S0 T r sigma q n_paths n_steps).
Proof.
  unfold simulate_paths.
  destruct (py_div T (IZR n_steps)) as [dt|e]; [|reflexivity].
  destruct (np_random_normal legacy_gauss (np_random_seed 42) n_paths n_steps)
    as [[Zs|e] g']; reflexivity.
Qed.

(** A run with at least one step and no negative path count returns, and
    its three results are the reductions of the simulated paths. *)
Lemma monte_carlo_option_hit_ok g S0 K T r sigma threshold q n_paths n_steps :
  (0 <= n_paths)%Z -> (1 <= n_steps)%Z ->
  exists Sm,
    fst (simulate_paths np_random_seed legacy_gauss g S0 T r sigma q n_paths n_steps)
    = Ok (T / IZR n_steps, Sm) /\
    length (data Sm) = Z.to_nat n_paths /\
    starts_at S0 Sm /\
    let hit_mask := np_any_axis1 (ge_mask Sm threshold) in
    let hit_times :=
      map (fun i => INR i * (T / IZR n_steps))
        (mask_select hit_mask
           (map (fun b => default O (first_true b)) (ge_mask Sm threshold))) in
    fst (monte_carlo_option_hit np_random_seed legacy_gauss
           g S0 K T r sigma threshold q n_paths n_steps)
    = Ok (np_mean (map bool_R hit_mask),
          (if decide (0 < length hit_times)%nat then Some (np_mean hit_times) else None),
          np_mul (np_mean (map (fun h : bool => if h then threshold - K else 0) hit_mask))
                 (Num (exp (- r * T)))).
Proof.
  intros Hp Hs.
  destruct (simulate_paths_ok g S0 T r sigma q n_paths n_steps Hp Hs)
    as (Sm & Hsim & Hw & E0 & E1 & Hst).
  exists Sm. split; [exact Hsim|]. split; [destruct Hw as [-> _]; exact E0|].
  split; [exact Hst|]. intros hit_mask hit_times.
  rewrite monte_carlo_option_hit_unfold, Hsim. simpl.
  apply reduce_paths_ok. rewrite E1. lia.
Qed.

Lemma paths_nonempty (Sm : ndarray float64) threshold (n_paths : Z) :
  (1 <= n_paths)%Z -> length (data Sm) = Z.to_nat n_paths ->
  (0 < length (np_any_axis1 (ge_mask Sm threshold)))%nat /\
  0 < INR (length (np_any_axis1 (ge_mask Sm threshold))).
Proof.
  intros Hp Hlen. rewrite hit_mask_length, Hlen.
  assert (H : (0 < Z.to_nat n_paths)%nat) by lia.
  split; [exact H | now apply lt_0_INR].
Qed.

Lemma mean_of_mask_nonempty (f : bool -> R) (m : list bool) :
  (0 < length m)%nat -> np_mean (map f m) = Num (spec_mean (map f m)).
Proof.
  intros H. apply np_mean_nonempty. destruct m; [simpl in H; lia | discriminate].
Qed.

(** C2. In a run with n_paths >= 1 and n_steps >= 1 the payoff of a path is
    threshold - K if the path hits (some step value >= threshold) and 0
    otherwise, and expected_pv is the mean of these payoffs over all n_paths
    paths times exp(-r*T). *)
Theorem expected_pv_discounted_mean_payoff g S0 K T r sigma threshold q n_paths n_steps :
  (1 <= n_paths)%Z -> (1 <= n_steps)%Z ->
  exists dt Sm hit_prob avg_hit_time payoffs,
    fst (simulate_paths np_random_seed legacy_gauss g S0 T r sigma q n_paths n_steps)
    = Ok (dt, Sm) /\
    length (data Sm) = Z.to_nat n_paths /\
    Forall2 (spec_payoff threshold K) (data Sm) payoffs /\
    fst (monte_carlo_option_hit np_random_seed legacy_gauss
           g S0 K T r sigma threshold q n_paths n_steps)
    = Ok (hit_prob, avg_hit_time, Num (spec_mean payoffs * exp (- r * T))).
Proof.
  intros Hp Hs.
  destruct (monte_carlo_option_hit_ok g S0 K T r sigma threshold q n_paths n_steps)
    as (Sm & Hsim & Hlen & _ & Hrun); [lia | lia |].
  cbv zeta in Hrun.
  destruct (paths_nonempty Sm threshold n_paths Hp Hlen) as [Hne _].
  rewrite (mean_of_mask_nonempty (fun h : bool => if h then threshold - K else 0)) in Hrun
    by exact Hne.
  do 5 eexists. split; [exact Hsim|]. split; [exact Hlen|].
  split; [|exact Hrun]. apply payoff_spec.
Qed.

(** C4. With the contract, the generator and the sizes fixed (n_paths >= 1,
    n_steps >= 1) and t1 <= t2, the hit_probability returned for the
    threshold t2 is at most the one returned for t1. *)
Theorem hit_probability_decreasing g1 g2 S0 K T r sigma q n_paths n_steps t1 t2 :
  t1 <= t2 -> (1 <= n_paths)%Z -> (1 <= n_steps)%Z ->
  exists p1 a1 v1 p2 a2 v2,
    fst (monte_carlo_option_hit np_random_seed legacy_gauss
           g1 S0 K T r sigma t1 q n_paths n_steps) = Ok (Num p1, a1, v1) /\
    fst (monte_carlo_option_hit np_random_seed legacy_gauss
           g2 S0 K T r sigma t2 q n_paths n_steps) = Ok (Num p2, a2, v2) /\
    p2 <= p1.
Proof.
  intros Ht Hp Hs.
  destruct (monte_carlo_option_hit_ok g1 S0 K T r sigma t1 q n_paths n_steps)
    as (Sm & Hsim1 & Hlen & _ & Hrun1); [lia | lia |].
  destruct (monte_carlo_option_hit_ok g2 S0 K T r sigma t2 q n_paths n_steps)
    as (Sm2 & Hsim2 & _ & _ & Hrun2); [lia | lia |].
  rewrite (simulate_paths_reseeds g2 g1), Hsim1 in Hsim2.
  injection Hsim2 as <-. cbv zeta in Hrun1, Hrun2.
  destruct (paths_nonempty Sm t1 n_paths Hp Hlen) as [Hne1 Hpos1].
  destruct (paths_nonempty Sm t2 n_paths Hp Hlen) as [Hne2 _].
  rewrite (mean_of_mask_nonempty bool_R) in Hrun1 by exact Hne1.
  rewrite (mean_of_mask_nonempty bool_R) in Hrun2 by exact Hne2.
  do 6 eexists. split; [exact Hrun1|]. split; [exact Hrun2|].
  unfold spec_mean. rewrite !length_map, !hit_mask_length.
  rewrite hit_mask_length in Hpos1.
  apply Rmult_le_compat_r; [left; now apply Rinv_0_lt_compat|].
  apply Rsum_bool_le, hit_mask_mono, Ht.
Qed.

(** C5. With threshold <= S0, n_paths >= 1 and n_steps >= 1 the simulator
    returns hit_probability 1.0: the barrier check runs over the whole
    array and column 0 holds S0. *)
Theorem hit_probability_one_below_spot g S0 K T r sigma threshold q n_paths n_steps :
  threshold <= S0 -> (1 <= n_paths)%Z -> (1 <= n_steps)%Z ->
  exists avg_hit_time PV,
    fst (monte_carlo_option_hit np_random_seed legacy_gauss
           g S0 K T r sigma threshold q n_paths n_steps)
    = Ok (Num 1, avg_hit_time, PV).
Proof.
  intros Ht Hp Hs.
  destruct (monte_carlo_option_hit_ok g S0 K T r sigma threshold q n_paths n_steps)
    as (Sm & _ & Hlen & Hstart & Hrun); [lia | lia |].
  cbv zeta in Hrun.
  destruct (paths_nonempty Sm threshold n_paths Hp Hlen) as [Hne Hpos].
  rewrite (mean_of_mask_nonempty bool_R) in Hrun by exact Hne.
  assert (Hone : spec_mean (map bool_R (np_any_axis1 (ge_mask Sm threshold))) = 1).
  { unfold spec_mean. rewrite length_map.
    rewrite Rsum_bool_all by (apply (hit_mask_all threshold S0); assumption).
    apply Rdiv_diag. lra. }
  rewrite Hone in Hrun. do 2 eexists. exact Hrun.
Qed.

(** C7. Two invocations with the same arguments return the same
    hit_probability, avg_hit_time and expected_pv (or raise the same
    exception), whatever state the global generator was in before each. *)
Theorem monte_carlo_deterministic g1 g2 S0 K T r sigma threshold q n_paths n_steps :
  fst (monte_carlo_option_hit np_random_seed legacy_gauss
         g1 S0 K T r sigma threshold q n_paths n_steps)
  = fst (monte_carlo_option_hit np_random_seed legacy_gauss
           g2 S0 K T r sigma threshold q n_paths n_steps).
Proof.
  rewrite !monte_carlo_option_hit_unfold.
  now rewrite (simulate_paths_reseeds g1 g2).
Qed.

(** C6. In a run that returns (n_paths >= 0, n_steps >= 1): if no path
    reaches the threshold, avg_hit_time is None (neither 0 nor nan); if some
    path does, it is the mean, over the hitting paths only, of
    (index of the first step with value >= threshold) * dt, dt = T / n_steps. *)
Theorem avg_hit_time_absent_or_mean g S0 K T r sigma threshold q n_paths n_steps :
  (0 <= n_paths)%Z -> (1 <= n_steps)%Z ->
  exists Sm hit_prob avg_hit_time PV,
    fst (simulate_paths np_random_seed legacy_gauss g S0 T r sigma q n_paths n_steps)
    = Ok (T / IZR n_steps, Sm) /\
    fst (monte_carlo_option_hit np_random_seed legacy_gauss
           g S0 K T r sigma threshold q n_paths n_steps)
    = Ok (hit_prob, avg_hit_time, PV) /\
    (Forall (fun path => ~ path_hits threshold path) (data Sm) ->
       avg_hit_time = None /\ avg_hit_time <> Some (Num 0) /\ avg_hit_time <> Some NaN) /\
    (Exists (path_hits threshold) (data Sm) ->
       exists ts, spec_hit_times threshold (T / IZR n_steps) (data Sm) ts /\
                  ts <> [] /\ avg_hit_time = Some (Num (spec_mean ts))).
Proof.
  intros Hp Hs.
  destruct (monte_carlo_option_hit_ok g S0 K T r sigma threshold q n_paths n_steps Hp Hs)
    as (Sm & Hsim & _ & _ & Hrun).
  cbv zeta in Hrun.
  pose proof (hit_times_spec threshold (T / IZR n_steps) (data Sm)) as Hts.
  cbv zeta in Hts. fold (ge_mask Sm threshold) in Hts.
  set (hit_times := map (fun i => INR i * (T / IZR n_steps)) _) in Hrun, Hts.
  do 4 eexists. split; [exact Hsim|]. split; [exact Hrun|]. split.
  - intros Hnone. rewrite (spec_hit_times_none _ _ _ _ Hts Hnone). simpl.
    repeat split; discriminate.
  - intros Hsome. pose proof (spec_hit_times_some _ _ _ _ Hts Hsome) as Hne.
    exists hit_times. split; [exact Hts|]. split; [exact Hne|].
    destruct (decide (0 < length hit_times)%nat) as [_|Hzero].
    + now rewrite np_mean_nonempty.
    + destruct hit_times; [contradiction | simpl in Hzero; lia].
Qed.


(** No parameter of the contract is checked: a run with n_paths >= 0 and
    n_steps >= 1 returns for all real S0, K, T, r, sigma, threshold and q. *)
Lemma monte_carlo_option_hit_returns g S0 K T r sigma threshold q n_paths n_steps :
  (0 <= n_paths)%Z -> (1 <= n_steps)%Z ->
  is_ok (fst (monte_carlo_option_hit np_random_seed legacy_gauss
                g S0 K T r sigma threshold q n_paths n_steps)).
Proof.
  intros Hp Hs.
  destruct (monte_carlo_option_hit_ok g S0 K T r sigma threshold q n_paths n_steps Hp Hs)
    as (Sm & _ & _ & _ & Hrun).
  eexists. exact Hrun.
Qed.

Lemma monte_carlo_zero_paths g S0 K T r sigma threshold q n_steps :
  (1 <= n_steps)%Z ->
  fst (monte_carlo_option_hit np_random_seed legacy_gauss
         g S0 K T r sigma threshold q 0 n_steps)
  = Ok (NaN, None, NaN).
Proof.
  intros Hs.
  destruct (monte_carlo_option_hit_ok g S0 K T r sigma threshold q 0 n_steps)
    as (Sm & _ & Hlen & _ & Hrun); [lia | lia |].
  cbv zeta in Hrun. unfold ge_mask in Hrun.
  destruct (data Sm) as [|row rows]; [exact Hrun | discriminate Hlen].
Qed.

Lemma monte_carlo_zero_steps g S0 K T r sigma threshold q n_paths :
  fst (monte_carlo_option_hit np_random_seed legacy_gauss
         g S0 K T r sigma threshold q n_paths 0)
  = Raise ZeroDivisionError.
Proof.
  rewrite monte_carlo_option_hit_unfold. unfold simulate_paths.
  now rewrite py_div_zero.
Qed.

Lemma monte_carlo_negative_size g S0 K T r sigma threshold q n_paths n_steps :
  (n_steps <> 0)%Z -> (n_paths < 0 \/ n_steps < 0)%Z ->
  fst (monte_carlo_option_hit np_random_seed legacy_gauss
         g S0 K T r sigma threshold q n_paths n_steps)
  = Raise ValueError.
Proof.
  intros Hne Hneg. rewrite monte_carlo_option_hit_unfold. unfold simulate_paths.
  rewrite py_div_ok by now apply IZR_steps_neq_0.
  now rewrite np_random_normal_negative.
Qed.

(** C8, amended. The simulator fails for n_steps = 0 (ZeroDivisionError in
    T / n_steps), for n_steps < 0 and for n_paths < 0 (ValueError: negative
    dimensions); for n_paths = 0 and n_steps >= 1 it does not fail but
    returns (nan, None, nan). *)
Theorem simulator_on_nonpositive_sizes g S0 K T r sigma threshold q n_paths n_steps :
  let run := fst (monte_carlo_option_hit np_random_seed legacy_gauss
                    g S0 K T r sigma threshold q n_paths n_steps) in
  (n_steps = 0%Z -> run = Raise ZeroDivisionError) /\
  ((n_steps < 0)%Z -> run = Raise ValueError) /\
  ((n_paths < 0)%Z -> n_steps <> 0%Z -> run = Raise ValueError) /\
  (n_paths = 0%Z -> (1 <= n_steps)%Z -> run = Ok (NaN, None, NaN)).
Proof.
  cbv zeta. repeat split.
  - intros ->. apply monte_carlo_zero_steps.
  - intros Hs. apply monte_carlo_negative_size; lia.
  - intros Hp Hs. apply monte_carlo_negative_size; [exact Hs | now left].
  - intros -> Hs. now apply monte_carlo_zero_paths.
Qed.

End SimulatorFacts.

(** ** Parameters outside the contract *)


(** ** The claims on concrete inputs *)

Lemma black_scholes_call_formula_witness :
  black_scholes_call math_erf 100 100 (1/2) (45/1000) (3/10) 0
  = Ok (spec_price math_erf 100 100 (1/2) (45/1000) (3/10) 0).
Proof. apply black_scholes_call_formula; lra. Defined.

Lemma expected_pv_discounted_mean_payoff_witness :
  exists dt Sm hit_prob avg_hit_time payoffs,
    fst (simulate_paths sample_seed sample_gauss O 100 (1/2) (45/1000) (3/10) 0 20000 126)
    = Ok (dt, Sm) /\
    length (data Sm) = Z.to_nat 20000 /\
    Forall2 (spec_payoff 110 100) (data Sm) payoffs /\
    fst (monte_carlo_option_hit sample_seed sample_gauss
           O 100 100 (1/2) (45/1000) (3/10) 110 0 20000 126)
    = Ok (hit_prob, avg_hit_time, Num (spec_mean payoffs * exp (- (45/1000) * (1/2)))).
Proof. apply expected_pv_discounted_mean_payoff; lia. Defined.

Lemma hit_probability_decreasing_witness :
  exists p1 a1 v1 p2 a2 v2,
    fst (monte_carlo_option_hit sample_seed sample_gauss
           O 100 100 (1/2) (45/1000) (3/10) 110 0 20000 126) = Ok (Num p1, a1, v1) /\
    fst (monte_carlo_option_hit sample_seed sample_gauss
           (S O) 100 100 (1/2) (45/1000) (3/10) 120 0 20000 126) = Ok (Num p2, a2, v2) /\
    p2 <= p1.
Proof. apply hit_probability_decreasing; [lra | lia | lia]. Defined.

Lemma hit_probability_one_below_spot_witness :
  exists avg_hit_time PV,
    fst (monte_carlo_option_hit sample_seed sample_gauss
           O 100 100 (1/2) (45/1000) (3/10) 95 0 20000 126)
    = Ok (Num 1, avg_hit_time, PV).
Proof. apply hit_probability_one_below_spot; [lra | lia | lia]. Defined.

Lemma avg_hit_time_absent_or_mean_witness :
  exists Sm hit_prob avg_hit_time PV,
    fst (simulate_paths sample_seed sample_gauss O 100 (1/2) (45/1000) (3/10) 0 20000 126)
    = Ok (1/2 / IZR 126, Sm) /\
    fst (monte_carlo_option_hit sample_seed sample_gauss
           O 100 100 (1/2) (45/1000) (3/10) 110 0 20000 126)
    = Ok (hit_prob, avg_hit_time, PV) /\
    (Forall (fun path => ~ path_hits 110 path) (data Sm) ->
       avg_hit_time = None /\ avg_hit_time <> Some (Num 0) /\ avg_hit_time <> Some NaN) /\
    (Exists (path_hits 110) (data Sm) ->
       exists ts, spec_hit_times 110 (1/2 / IZR 126) (data Sm) ts /\
                  ts <> [] /\ avg_hit_time = Some (Num (spec_mean ts))).
Proof. apply avg_hit_time_absent_or_mean; lia. Defined.


Lemma simulator_on_nonpositive_sizes_witness :
  fst (monte_carlo_option_hit sample_seed sample_gauss
         O 100 100 (1/2) (45/1000) (3/10) 110 0 20000 0)
  = Raise ZeroDivisionError.
Proof.
  apply (simulator_on_nonpositive_sizes nat sample_seed sample_gauss
           O 100 100 (1/2) (45/1000) (3/10) 110 0 20000 0).
  reflexivity.
Defined.



(** C8 fails at n_paths = 0 with n_steps = 126: the simulator returns
    (nan, None, nan) instead of failing. *)
Lemma zero_paths_returns_nan :
  fst (monte_carlo_option_hit sample_seed sample_gauss
         O 100 100 (1/2) (45/1000) (3/10) 110 0 0 126)
  = Ok (NaN, None, NaN).
Proof. apply monte_carlo_zero_paths. lia. Qed.


(** * Further properties

    Properties of the pricer, of the simulator and of [run], read off the
    code. *)

(** ** The distribution function is strictly increasing *)

Section NormalCdfStrict.

Variable F : R -> R.
Variable c : R.
Hypothesis c_pos : 0 < c.
Hypothesis F_deriv : forall x, derivable_pt_lim F x (dens c x).
Hypothesis F_limit :
  forall eps, 0 < eps -> exists A, forall x, x < A -> Rabs (F x) < eps.

Lemma cdf_pos x : 0 < F x.
Proof.
  pose proof (cdf_nonneg F c c_pos F_deriv F_limit (x - 1)).
  pose proof (cdf_increasing F c c_pos F_deriv (x - 1) x ltac:(lra)). lra.
Qed.

Lemma dens_plus_x_cdf_deriv x : derivable_pt_lim (fun t => dens c t + t * F t) x (F x).
Proof.
  replace (F x) with (- x * dens c x + (1 * F x + x * dens c x)) by ring.
  apply (derivable_pt_lim_plus (dens c) (fun t => t * F t)); [apply dens_deriv|].
  apply (derivable_pt_lim_mult (fun t => t) F); [apply derivable_pt_lim_id | apply F_deriv].
Qed.

Lemma dens_plus_x_cdf_pos x : 0 < dens c x + x * F x.
Proof.
  pose proof (dens_plus_x_cdf_nonneg F c c_pos F_deriv F_limit (x - 1)) as H0.
  destruct (MVT_cor2 (fun t => dens c t + t * F t) F (x - 1) x ltac:(lra)) as (y & Hy & _).
  - intros z _. apply dens_plus_x_cdf_deriv.
  - pose proof (cdf_pos y). lra.
Qed.

Lemma cdf_times_exp_increasing a b :
  a < b -> F a * exp (a * a / 2) < F b * exp (b * b / 2).
Proof.
  intros Hab.
  destruct (MVT_cor2 (fun t => F t * exp (t * t / 2))
              (fun x => exp (x * x / 2) * (dens c x + x * F x)) a b Hab) as (x & Hx & _).
  - intros y _. apply cdf_times_exp_deriv, F_deriv.
  - assert (Hp : 0 < exp (x * x / 2) * (dens c x + x * F x)).
    { apply Rmult_lt_0_compat; [apply exp_pos | apply dens_plus_x_cdf_pos]. }
    assert (Hq : 0 < exp (x * x / 2) * (dens c x + x * F x) * (b - a)).
    { apply Rmult_lt_0_compat; [exact Hp | lra]. }
    lra.
Qed.

Lemma cdf_shift_strict d v : 0 < v -> F (d - v) < exp (d * v - v * v / 2) * F d.
Proof.
  intros Hv.
  pose proof (cdf_times_exp_increasing (d - v) d ltac:(lra)) as Hm.
  pose proof (exp_pos ((d - v) * (d - v) / 2)) as He.
  apply Rmult_lt_reg_r with (exp ((d - v) * (d - v) / 2)); [exact He|].
  replace (exp (d * v - v * v / 2) * F d * exp ((d - v) * (d - v) / 2))
    with (F d * exp (d * d / 2)); [exact Hm|].
  replace (exp (d * d / 2))
    with (exp (d * v - v * v / 2) * exp ((d - v) * (d - v) / 2))
    by (rewrite <- exp_plus; f_equal; field).
  ring.
Qed.

End NormalCdfStrict.

(** The cdf built on [math_erf]. *)

Lemma math_erf_density :
  0 < 2 / sqrt PI / (2 * sqrt 2) /\
  forall x, derivable_pt_lim (spec_N math_erf) x (dens (2 / sqrt PI / (2 * sqrt 2)) x).
Proof.
  pose proof sqrt_PI_pos. assert (0 < sqrt 2) by (apply sqrt_lt_R0; lra).
  split.
  - apply Rdiv_lt_0_compat; [apply Rdiv_lt_0_compat|]; lra.
  - intros x. apply spec_N_deriv. apply math_erf_deriv.
Qed.

Lemma spec_N_pos x : 0 < spec_N math_erf x.
Proof.
  destruct math_erf_density as [Hc Hd].
  exact (cdf_pos _ _ Hc Hd (spec_N_limit _ math_erf_is_error_function) x).
Qed.


Lemma spec_N_opp x : spec_N math_erf (- x) = 1 - spec_N math_erf x.
Proof.
  unfold spec_N. replace (- x / sqrt 2) with (- (x / sqrt 2)) by (field; apply sqrt2_neq_0).
  rewrite math_erf_odd. lra.
Qed.

Lemma spec_N_lt_1 x : spec_N math_erf x < 1.
Proof. pose proof (spec_N_pos (- x)) as H. rewrite spec_N_opp in H. lra. Qed.

Lemma spec_N_shift_strict d v :
  0 < v -> spec_N math_erf (d - v) < exp (d * v - v * v / 2) * spec_N math_erf d.
Proof.
  destruct math_erf_density as [Hc Hd].
  exact (cdf_shift_strict _ _ Hc Hd (spec_N_limit _ math_erf_is_error_function) d v).
Qed.

(** ** Bounds on the price *)

(** The discounted spot is the discounted strike times exp(d1*v - v^2/2),
    v = sigma * sqrt T. *)
Lemma discounted_spot S0 K T r sigma q :
  0 < S0 -> 0 < K -> 0 < T -> 0 < sigma ->
  S0 * exp (- q * T)
  = K * exp (- r * T)
    * exp (spec_d1 S0 K T r sigma q * (sigma * sqrt T)
           - sigma * sqrt T * (sigma * sqrt T) / 2).
Proof.
  intros HS HK HT Hs.
  assert (HsT : 0 < sqrt T) by now apply sqrt_lt_R0.
  set (v := sigma * sqrt T).
  assert (Hv : 0 < v) by (unfold v; nra).
  set (d := spec_d1 S0 K T r sigma q).
  assert (Hdv : d * v = ln (S0 / K) + (r - q + 0.5 * sigma ^ 2) * T).
  { unfold d, spec_d1. fold v. replace 0.5 with (/ 2) by lra. field. lra. }
  assert (Hvv : v * v = sigma ^ 2 * T).
  { unfold v. replace (sigma * sqrt T * (sigma * sqrt T))
      with (sigma ^ 2 * (sqrt T * sqrt T)) by ring.
    rewrite sqrt_sqrt by lra. reflexivity. }
  replace (d * v - v * v / 2) with (ln (S0 / K) + (r - q) * T)
    by (rewrite Hdv, Hvv; replace 0.5 with (/ 2) by lra; field).
  rewrite exp_plus, exp_ln by now apply Rdiv_lt_0_compat.
  replace (K * exp (- r * T) * (S0 / K * exp ((r - q) * T)))
    with (S0 * (exp (- r * T) * exp ((r - q) * T))) by (field; lra).
  rewrite <- exp_plus. do 2 f_equal. ring.
Qed.

Lemma spec_price_bounds S0 K T r sigma q :
  0 < S0 -> 0 < K -> 0 < T -> 0 < sigma ->
  0 < spec_price math_erf S0 K T r sigma q /\
  S0 * exp (- q * T) - K * exp (- r * T) < spec_price math_erf S0 K T r sigma q /\
  spec_price math_erf S0 K T r sigma q < S0 * exp (- q * T).
Proof.
  intros HS HK HT Hs.
  assert (HsT : 0 < sqrt T) by now apply sqrt_lt_R0.
  pose proof (discounted_spot S0 K T r sigma q HS HK HT Hs) as Hfwd.
  unfold spec_price, spec_d2.
  set (v := sigma * sqrt T) in *.
  assert (Hv : 0 < v) by (unfold v; nra).
  set (d := spec_d1 S0 K T r sigma q) in *.
  set (E := exp (d * v - v * v / 2)) in *.
  assert (HE : 0 < E) by apply exp_pos.
  pose proof (spec_N_shift_strict d v Hv) as H1. fold E in H1.
  pose proof (spec_N_shift_strict (v - d) v Hv) as H2.
  replace (v - d - v) with (- d) in H2 by ring.
  replace (v - d) with (- (d - v)) in H2 by ring.
  rewrite !spec_N_opp in H2.
  replace (- (d - v) * v - v * v / 2) with (- (d * v - v * v / 2)) in H2 by field.
  rewrite exp_Ropp in H2. fold E in H2.
  assert (H3 : E * (1 - spec_N math_erf d) < 1 - spec_N math_erf (d - v)).
  { apply Rmult_lt_compat_l with (r := E) in H2; [|exact HE].
    rewrite <- Rmult_assoc, Rinv_r, Rmult_1_l in H2 by lra. exact H2. }
  assert (HKr : 0 < K * exp (- r * T)).
  { apply Rmult_lt_0_compat; [exact HK | apply exp_pos]. }
  pose proof (spec_N_pos (d - v)) as Hp2. pose proof (spec_N_lt_1 d) as Hl1.
  rewrite Hfwd.
  set (n1 := spec_N math_erf d) in *. set (n2 := spec_N math_erf (d - v)) in *.
  set (Kb := K * exp (- r * T)) in *. clearbody n1 n2 Kb E.
  assert (A1 : 0 < Kb * (E * n1 - n2)) by (apply Rmult_lt_0_compat; lra).
  assert (A2 : 0 < Kb * (1 - n2 - E * (1 - n1))) by (apply Rmult_lt_0_compat; lra).
  assert (A3 : 0 < Kb * E * (1 - n1)) by (repeat apply Rmult_lt_0_compat; lra).
  assert (A4 : 0 < Kb * n2) by (apply Rmult_lt_0_compat; lra).
  repeat split; lra.
Qed.



Lemma spec_price_scale erf lam S0 K T r sigma q :
  lam <> 0 -> K <> 0 ->
  spec_price erf (lam * S0) (lam * K) T r sigma q = lam * spec_price erf S0 K T r sigma q.
Proof.
  intros Hl HK. unfold spec_price, spec_d2, spec_d1.
  replace (lam * S0 / (lam * K)) with (S0 / K) by (field; split; assumption).
  ring.
Qed.


(** X2. The helper N is symmetric about 0: N(x) + N(-x) = 1. *)
Theorem N_symmetric (x : R) :
  exists a b, N math_erf x = Ok a /\ N math_erf (- x) = Ok b /\ a + b = 1.
Proof.
  exists (spec_N math_erf x), (spec_N math_erf (- x)).
  split; [apply N_ok|]. split; [apply N_ok|]. rewrite spec_N_opp. ring.
Qed.



(** X5. Where the pricer returns (K <> 0, S0/K > 0, T > 0, sigma <> 0),
    scaling spot and strike by lam <> 0 scales the price by lam; so a
    negative spot with a negative strike gives the negated price. *)
Theorem black_scholes_call_homogeneous erf (lam S0 K T r sigma q : R) :
  lam <> 0 -> K <> 0 -> 0 < S0 / K -> 0 < T -> sigma <> 0 ->
  exists price,
    black_scholes_call erf S0 K T r sigma q = Ok price /\
    black_scholes_call erf (lam * S0) (lam * K) T r sigma q = Ok (lam * price).
Proof.
  intros Hl HK Hsk HT Hs.
  exists (spec_price erf S0 K T r sigma q).
  split; [now apply black_scholes_call_value|].
  rewrite <- spec_price_scale by assumption.
  apply black_scholes_call_value; try assumption.
  - now apply Rmult_integral_contrapositive_currified.
  - replace (lam * S0 / (lam * K)) with (S0 / K) by (field; split; assumption). exact Hsk.
Qed.

(** ** The loop over the columns, row by row *)

Lemma gbm_from_length r q sigma dt prev zs :
  length (gbm_from r q sigma dt prev zs) = length zs.
Proof. revert prev. induction zs as [|z zs IH]; intros prev; simpl; [reflexivity | now rewrite IH]. Qed.

Lemma gbm_path_length S0 r q sigma dt zrow :
  zrow <> [] -> length (gbm_path S0 r q sigma dt zrow) = length zrow.
Proof.
  intros H. destruct zrow as [|z zs]; [contradiction|].
  unfold gbm_path. simpl. now rewrite gbm_from_length.
Qed.

Lemma gbm_from_snoc r q sigma dt prev zs k :
  (k < length zs)%nat ->
  take (S (S k)) (prev :: gbm_from r q sigma dt prev zs)
  = take (S k) (prev :: gbm_from r q sigma dt prev zs)
    ++ [np_mul (nth k (prev :: gbm_from r q sigma dt prev zs) NaN)
               (gbm_growth r q sigma dt (nth k zs 0))].
Proof.
  revert prev zs. induction k as [|k IH]; intros prev [|z zs] Hk; simpl in Hk; try lia.
  - reflexivity.
  - specialize (IH (np_mul prev (gbm_growth r q sigma dt z)) zs ltac:(lia)).
    change (gbm_from r q sigma dt prev (z :: zs))
      with (np_mul prev (gbm_growth r q sigma dt z)
            :: gbm_from r q sigma dt (np_mul prev (gbm_growth r q sigma dt z)) zs).
    set (P := np_mul prev (gbm_growth r q sigma dt z)
              :: gbm_from r q sigma dt (np_mul prev (gbm_growth r q sigma dt z)) zs) in *.
    change (take (S (S (S k))) (prev :: P)) with (prev :: take (S (S k)) P).
    change (take (S (S k)) (prev :: P)) with (prev :: take (S k) P).
    rewrite IH. reflexivity.
Qed.

(** Filling column [t] of a row whose first [t] columns are filled. *)
Lemma partial_path_step S0 r q sigma dt t zrow :
  (1 <= t < length zrow)%nat ->
  <[t := np_mul (nth (t - 1) (partial_path S0 r q sigma dt t zrow) NaN)
                (gbm_growth r q sigma dt (nth t zrow 0))]>
    (partial_path S0 r q sigma dt t zrow)
  = partial_path S0 r q sigma dt (S t) zrow.
Proof.
  intros Ht. unfold partial_path.
  destruct zrow as [|z0 zs]; [simpl in Ht; lia|]. simpl in Ht.
  unfold gbm_path. simpl tail.
  set (P := Num S0 :: gbm_from r q sigma dt (Num S0) zs).
  assert (HP : length P = S (length zs)) by (unfold P; simpl; now rewrite gbm_from_length).
  assert (Htake : length (take t P) = t) by (rewrite length_take; lia).
  destruct t as [|k]; [lia|].
  replace (S k - 1)%nat with k by lia.
  rewrite app_nth1 by lia.
  assert (Hnth : nth k (take (S k) P) NaN = nth k P NaN).
  { rewrite !nth_lookup, lookup_take_lt by lia. reflexivity. }
  rewrite Hnth.
  rewrite insert_app_r_alt by lia. rewrite Htake, Nat.sub_diag.
  replace (length (z0 :: zs) - S k)%nat with (S (length (z0 :: zs) - S (S k))) by (simpl; lia).
  simpl replicate. simpl insert.
  unfold P. rewrite (gbm_from_snoc r q sigma dt (Num S0) zs k) by lia.
  fold P. rewrite <- app_assoc. reflexivity.
Qed.

Lemma partial_path_start S0 r q sigma dt zrow n :
  length zrow = n -> (1 <= n)%nat ->
  <[O := Num S0]> (replicate n (Num 0)) = partial_path S0 r q sigma dt 1 zrow.
Proof.
  intros Hl Hn. unfold partial_path, gbm_path. rewrite Hl.
  destruct n as [|n]; [lia|]. simpl. now rewrite Nat.sub_0_r.
Qed.

Lemma partial_path_full S0 r q sigma dt zrow :
  zrow <> [] ->
  partial_path S0 r q sigma dt (length zrow) zrow = gbm_path S0 r q sigma dt zrow.
Proof.
  intros H. unfold partial_path.
  rewrite Nat.sub_diag, take_ge by (rewrite gbm_path_length by assumption; lia).
  apply app_nil_r.
Qed.

(** The loop body on the whole array. *)
Lemma gbm_step_rows S0 r q sigma dt (Zs : ndarray R) n0 t :
  Forall (fun zrow => length zrow = shape1 Zs) (data Zs) ->
  (1 <= t < shape1 Zs)%nat ->
  gbm_step r q sigma dt Zs t
    (NdArray n0 (shape1 Zs) (map (partial_path S0 r q sigma dt t) (data Zs)))
  = Ok (NdArray n0 (shape1 Zs) (map (partial_path S0 r q sigma dt (S t)) (data Zs))).
Proof.
  intros Hrows Ht. unfold gbm_step.
  rewrite get_col_ok by (simpl; lia). simpl.
  rewrite get_col_ok by lia. simpl.
  rewrite set_col_ok by (simpl; lia). simpl. do 2 f_equal.
  induction Hrows as [|zrow rows Hrow _ IH]; [reflexivity|]. simpl.
  f_equal; [|exact IH].
  apply (partial_path_step S0 r q sigma dt t zrow). lia.
Qed.

Lemma for_each_seq {St} (body : nat -> St -> result St) (st : nat -> St) (len start : nat) :
  (forall t, (start <= t < start + len)%nat -> body t (st t) = Ok (st (S t))) ->
  for_each body (seq start len) (st start) = Ok (st (start + len)%nat).
Proof.
  revert start. induction len as [|len IH]; intros start Hbody; simpl.
  - now rewrite Nat.add_0_r.
  - rewrite Hbody by lia. simpl. rewrite IH.
    + f_equal. f_equal. lia.
    + intros t Ht. apply Hbody. lia.
Qed.

(** The array of paths, row by row. *)
Lemma build_paths_rows S0 r q sigma dt (n_steps : Z) (Zs : ndarray R) :
  well_shaped Zs -> (1 <= n_steps)%Z -> shape1 Zs = Z.to_nat n_steps ->
  build_paths S0 r q sigma dt n_steps Zs
  = Ok (NdArray (shape0 Zs) (shape1 Zs) (map (gbm_path S0 r q sigma dt) (data Zs))).
Proof.
  intros [Hlen Hrows] Hpos Hshape. unfold build_paths.
  rewrite set_col_ok by (simpl; lia). simpl.
  assert (Hstart : zip_with (fun row v => <[O:=v]> row)
                     (replicate (shape0 Zs) (replicate (shape1 Zs) (Num 0)))
                     (replicate (shape0 Zs) (Num S0))
                   = map (partial_path S0 r q sigma dt 1) (data Zs)).
  { rewrite <- Hlen. clear Hlen.
    induction Hrows as [|zrow rows Hrow _ IH]; [reflexivity|]. simpl.
    f_equal; [|exact IH]. apply partial_path_start; [exact Hrow | lia]. }
  rewrite Hstart.
  rewrite (for_each_seq _
             (fun t => NdArray (shape0 Zs) (shape1 Zs)
                         (map (partial_path S0 r q sigma dt t) (data Zs)))).
  - do 2 f_equal. replace (1 + Z.to_nat (n_steps - 1))%nat with (shape1 Zs) by lia.
    clear Hlen Hstart.
    induction Hrows as [|zrow rows Hrow _ IH]; [reflexivity|]. simpl.
    f_equal; [|exact IH]. rewrite <- Hrow. apply partial_path_full.
    intros ->. simpl in Hrow. lia.
  - intros t Ht. apply gbm_step_rows; [exact Hrows | lia].
Qed.

(** ** One path along its row *)

Lemma gbm_growth_num r q sigma dt z :
  0 <= dt ->
  gbm_growth r q sigma dt z
  = Num (exp ((r - q - 0.5 * sigma ^ 2) * dt + sigma * sqrt dt * z)).
Proof. intros H. unfold gbm_growth, np_sqrt. now rewrite Rlt_bool_false. Qed.


Lemma gbm_from_recurrence r q sigma dt prev zs k z :
  zs !! k = Some z ->
  exists p, (prev :: gbm_from r q sigma dt prev zs) !! k = Some p /\
            gbm_from r q sigma dt prev zs !! k = Some (np_mul p (gbm_growth r q sigma dt z)).
Proof.
  revert prev k. induction zs as [|z0 zs IH]; intros prev k Hk; [destruct k; discriminate|].
  destruct k as [|k]; simpl in Hk.
  - injection Hk as ->. exists prev. split; reflexivity.
  - destruct (IH (np_mul prev (gbm_growth r q sigma dt z0)) k Hk) as (p & Hp1 & Hp2).
    exists p. split; assumption.
Qed.

Lemma gbm_path_recurrence S0 r q sigma dt zrow t z :
  (1 <= t)%nat -> zrow !! t = Some z ->
  exists prev, gbm_path S0 r q sigma dt zrow !! (t - 1)%nat = Some prev /\
               gbm_path S0 r q sigma dt zrow !! t
               = Some (np_mul prev (gbm_growth r q sigma dt z)).
Proof.
  intros Ht Hz. destruct t as [|k]; [lia|]. destruct zrow as [|z0 zs]; [discriminate|].
  simpl in Hz. replace (S k - 1)%nat with k by lia. unfold gbm_path. simpl tail.
  exact (gbm_from_recurrence r q sigma dt (Num S0) zs k z Hz).
Qed.

Lemma gbm_from_positive r q sigma dt x zs :
  0 <= dt -> 0 < x ->
  Forall (fun v => exists y, v = Num y /\ 0 < y) (gbm_from r q sigma dt (Num x) zs).
Proof.
  intros Hdt. revert x. induction zs as [|z zs IH]; intros x Hx; simpl; [constructor|].
  rewrite gbm_growth_num by assumption. simpl.
  assert (Hpos : 0 < x * exp ((r - q - 0.5 * sigma ^ 2) * dt + sigma * sqrt dt * z)).
  { apply Rmult_lt_0_compat; [exact Hx | apply exp_pos]. }
  constructor; [eauto | now apply IH].
Qed.


Lemma gbm_from_zero_vol r q dt x zs k :
  0 <= dt -> (k < length zs)%nat ->
  gbm_from r q 0 dt (Num x) zs !! k = Some (Num (x * exp ((r - q) * dt * INR (S k)))).
Proof.
  intros Hdt. revert x k. induction zs as [|z zs IH]; intros x k Hk; simpl in Hk; [lia|].
  simpl. rewrite gbm_growth_num by assumption. simpl.
  replace ((r - q - 0.5 * (0 * (0 * 1))) * dt + 0 * sqrt dt * z) with ((r - q) * dt) by lra.
  destruct k as [|k]; simpl lookup.
  - simpl INR. now rewrite Rmult_1_r.
  - rewrite IH by lia. do 2 f_equal. rewrite Rmult_assoc, <- exp_plus.
    do 2 f_equal. ring.
Qed.

(** ** Sums over selected entries *)

Lemma mask_select_count {A} (mask : list bool) (a : list A) :
  length mask = length a ->
  INR (length (mask_select mask a)) = Rsum (map bool_R mask).
Proof.
  revert a. induction mask as [|b mask IH]; intros [|x a] Hl; simpl in Hl; try lia;
    [reflexivity|].
  injection Hl as Hl. specialize (IH a Hl).
  change (Rsum (map bool_R (b :: mask))) with (bool_R b + Rsum (map bool_R mask)).
  destruct b; simpl mask_select.
  - change (length (x :: mask_select mask a)) with (S (length (mask_select mask a))).
    rewrite S_INR, IH. simpl. lra.
  - rewrite IH. simpl. lra.
Qed.

Lemma mask_select_Forall {A} (P : A -> Prop) (mask : list bool) (a : list A) :
  Forall P a -> Forall P (mask_select mask a).
Proof.
  intros H. revert mask. induction H as [|x a Hx _ IH]; intros [|b mask]; simpl;
    try constructor.
  destruct b; [constructor; [exact Hx | apply IH] | apply IH].
Qed.

Lemma first_true_lt (b : list bool) i : first_true b = Some i -> (i < length b)%nat.
Proof.
  revert i. induction b as [|x b IH]; intros i; simpl; [discriminate|].
  destruct x; [intros [= <-]; lia|].
  destruct (first_true b) as [k|]; simpl; [|discriminate].
  intros [= <-]. specialize (IH k eq_refl). lia.
Qed.

Lemma Rsum_bounds (lo hi : R) (l : list R) :
  Forall (fun x => lo <= x <= hi) l ->
  INR (length l) * lo <= Rsum l <= INR (length l) * hi.
Proof.
  induction 1 as [|x l Hx _ IH]; [simpl; lra|].
  change (Rsum (x :: l)) with (x + Rsum l).
  change (length (x :: l)) with (S (length l)). rewrite S_INR. lra.
Qed.

Lemma map_replicate {A B} (f : A -> B) (n : nat) (x : A) :
  map f (replicate n x) = replicate n (f x).
Proof. induction n as [|n IH]; simpl; [reflexivity | now rewrite IH]. Qed.

Lemma Rsum_replicate (n : nat) (c : R) : Rsum (replicate n c) = INR n * c.
Proof.
  induction n as [|n IH]; [simpl; lra|].
  change (Rsum (replicate (S n) c)) with (c + Rsum (replicate n c)).
  rewrite IH, S_INR. ring.
Qed.

Lemma np_mean_replicate (n : nat) (c : R) :
  (0 < n)%nat -> np_mean (replicate n c) = Num c.
Proof.
  intros Hn. destruct n as [|n]; [lia|].
  change (np_mean (replicate (S n) c))
    with (Num (Rsum (replicate (S n) c) / INR (length (replicate (S n) c)))).
  rewrite Rsum_replicate, length_replicate. f_equal. field.
  apply not_0_INR. lia.
Qed.

(** ** Rows that all hit at once, rows that never hit *)

Lemma hit_at_start threshold S0 (rows : list (list float64)) :
  threshold <= S0 ->
  Forall (fun row => row !! O = Some (Num S0)) rows ->
  let B := map (map (fun v => np_ge v threshold)) rows in
  np_any_axis1 B = replicate (length rows) true /\
  map (fun b => default O (first_true b)) B = replicate (length rows) O.
Proof.
  intros Ht. induction 1 as [|row rows Hrow _ IH]; simpl; [split; reflexivity|].
  destruct row as [|v row]; [discriminate|]. injection Hrow as ->.
  simpl. rewrite Rle_bool_true by assumption. simpl.
  simpl in IH. destruct IH as [-> ->]. split; reflexivity.
Qed.

Lemma mask_select_all {A} (n : nat) (x : A) :
  mask_select (replicate n true) (replicate n x) = replicate n x.
Proof. induction n as [|n IH]; simpl; [reflexivity | now rewrite IH]. Qed.

Lemma reduce_paths_hit_at_start (Sm : ndarray float64) S0 K T r threshold dt :
  shape1 Sm <> O -> (0 < length (data Sm))%nat -> starts_at S0 Sm -> threshold <= S0 ->
  reduce_paths Sm K T r threshold dt
  = Ok (Num 1, Some (Num 0), Num ((threshold - K) * exp (- r * T))).
Proof.
  intros Hcols Hrows Hstart Ht.
  rewrite reduce_paths_ok by assumption. cbv zeta.
  destruct (hit_at_start threshold S0 (data Sm) Ht Hstart) as [Hmask Hidx].
  unfold ge_mask. rewrite Hmask, Hidx, mask_select_all.
  rewrite !map_replicate, !np_mean_replicate by assumption.
  rewrite length_replicate.
  destruct (decide (0 < length (data Sm))%nat); [|contradiction].
  simpl. now rewrite Rmult_0_l.
Qed.

Lemma hit_mask_none threshold (rows : list (list float64)) :
  Forall (fun row => ~ path_hits threshold row) rows ->
  np_any_axis1 (map (map (fun v => np_ge v threshold)) rows) = replicate (length rows) false.
Proof.
  induction 1 as [|row rows Hrow _ IH]; simpl; [reflexivity|].
  rewrite IH. f_equal.
  destruct (existsb (fun b : bool => b) (map (fun v => np_ge v threshold) row)) eqn:E;
    [|reflexivity].
  apply row_any_hits in E. contradiction.
Qed.



(** ** The simulated paths *)

Section SimulatorRuns.

Variable rng_state : Type.
Variable np_random_seed : Z -> rng_state.
Variable legacy_gauss : rng_state -> R * rng_state.

(** The generator after [m] draws, after [n] rows of [m] draws. *)
Lemma draw_row_state g m :
  snd (draw_row legacy_gauss g m) = Nat.iter m (fun s => snd (legacy_gauss s)) g.
Proof.
  revert g. induction m as [|m IH]; intros g; [reflexivity|].
  rewrite Nat.iter_succ_r. simpl.
  destruct (legacy_gauss g) as [z g1]. specialize (IH g1).
  destruct (draw_row legacy_gauss g1 m) as [zs g2]. exact IH.
Qed.

Lemma draw_rows_state g n m :
  snd (draw_rows legacy_gauss g n m)
  = Nat.iter (n * m) (fun s => snd (legacy_gauss s)) g.
Proof.
  revert g. induction n as [|n IH]; intros g; [reflexivity|].
  simpl. pose proof (draw_row_state g m) as Hrow.
  destruct (draw_row legacy_gauss g m) as [row g1]. specialize (IH g1).
  destruct (draw_rows legacy_gauss g1 n m) as [rows g2]. simpl in *.
  rewrite IH, Hrow, Nat.add_comm. symmetry. apply Nat.iter_add.
Qed.

Lemma simulate_paths_rows g S0 T r sigma q n_paths n_steps :
  (0 <= n_paths)%Z -> (1 <= n_steps)%Z ->
  exists Zs,
    fst (np_random_normal legacy_gauss (np_random_seed 42) n_paths n_steps) = Ok Zs /\
    well_shaped Zs /\ shape0 Zs = Z.to_nat n_paths /\ shape1 Zs = Z.to_nat n_steps /\
    fst (simulate_paths np_random_seed legacy_gauss g S0 T r sigma q n_paths n_steps)
    = Ok (T / IZR n_steps,
          NdArray (shape0 Zs) (shape1 Zs)
            (map (gbm_path S0 r q sigma (T / IZR n_steps)) (data Zs))).
Proof.
  intros Hp Hs.
  destruct (np_random_normal_ok rng_state legacy_gauss (np_random_seed 42) n_paths n_steps)
    as (Zs & HZ & Hw & E0 & E1); [lia | lia |].
  exists Zs. split; [exact HZ|]. split; [exact Hw|]. split; [exact E0|]. split; [exact E1|].
  unfold simulate_paths. rewrite py_div_ok by (apply IZR_steps_neq_0; lia).
  destruct (np_random_normal legacy_gauss (np_random_seed 42) n_paths n_steps) as [rz g'].
  simpl in HZ. subst rz.
  rewrite (build_paths_rows S0 r q sigma (T / IZR n_steps) n_steps Zs Hw) by assumption.
  reflexivity.
Qed.

(** A run that returns: the array of paths with its shape, and the three
    results as reductions of it. *)
Lemma monte_carlo_run g S0 K T r sigma threshold q n_paths n_steps :
  (0 <= n_paths)%Z -> (1 <= n_steps)%Z ->
  exists Sm,
    fst (simulate_paths np_random_seed legacy_gauss g S0 T r sigma q n_paths n_steps)
    = Ok (T / IZR n_steps, Sm) /\
    well_shaped Sm /\ length (data Sm) = Z.to_nat n_paths /\
    shape1 Sm = Z.to_nat n_steps /\ starts_at S0 Sm /\
    fst (monte_carlo_option_hit np_random_seed legacy_gauss
           g S0 K T r sigma threshold q n_paths n_steps)
    = reduce_paths Sm K T r threshold (T / IZR n_steps).
Proof.
  intros Hp Hs.
  destruct (simulate_paths_ok rng_state np_random_seed legacy_gauss
              g S0 T r sigma q n_paths n_steps Hp Hs) as (Sm & Hsim & Hw & E0 & E1 & Hst).
  exists Sm. split; [exact Hsim|]. split; [exact Hw|].
  split; [destruct Hw as [-> _]; exact E0|]. split; [exact E1|]. split; [exact Hst|].
  rewrite monte_carlo_option_hit_unfold, Hsim. reflexivity.
Qed.

(** X6. In a run with n_paths >= 0 and n_steps >= 1 the array of paths has
    one row per row of draws (the draws of np.random.normal after
    np.random.seed(42)); each row has n_steps values, starts at S0, and its
    value at every step t >= 1 is the value at t - 1 times
    exp((r - q - sigma^2/2)*dt + sigma*sqrt(dt)*z) for the draw z of that
    row and column, in NumPy's arithmetic (nan when dt < 0). *)
Theorem paths_follow_the_recurrence g S0 T r sigma q n_paths n_steps :
  (0 <= n_paths)%Z -> (1 <= n_steps)%Z ->
  exists Zs Sm,
    fst (np_random_normal legacy_gauss (np_random_seed 42) n_paths n_steps) = Ok Zs /\
    fst (simulate_paths np_random_seed legacy_gauss g S0 T r sigma q n_paths n_steps)
    = Ok (T / IZR n_steps, Sm) /\
    Forall2
      (fun zrow path =>
         length path = Z.to_nat n_steps /\
         path !! O = Some (Num S0) /\
         forall t z, (1 <= t)%nat -> zrow !! t = Some z ->
           exists prev,
             path !! (t - 1)%nat = Some prev /\
             path !! t = Some (np_mul prev (gbm_growth r q sigma (T / IZR n_steps) z)))
      (data Zs) (data Sm).
Proof.
  intros Hp Hs.
  destruct (simulate_paths_rows g S0 T r sigma q n_paths n_steps Hp Hs)
    as (Zs & HZ & [_ Hrows] & _ & E1 & Hsim).
  exists Zs. eexists. split; [exact HZ|]. split; [exact Hsim|]. simpl.
  clear HZ Hsim.
  induction Hrows as [|zrow rows Hrow _ IH]; simpl; constructor; [|exact IH].
  simpl in Hrow. split.
  - rewrite gbm_path_length; [congruence|]. intros ->. simpl in Hrow. lia.
  - split; [reflexivity|]. intros t z Ht Hz. now apply gbm_path_recurrence.
Qed.

(** X7. With S0 > 0 and T >= 0 every value of every simulated path is a
    positive number: no nan, no zero, no negative price (in exact
    arithmetic). *)
Theorem paths_stay_positive g S0 T r sigma q n_paths n_steps :
  0 < S0 -> 0 <= T -> (0 <= n_paths)%Z -> (1 <= n_steps)%Z ->
  exists Sm,
    fst (simulate_paths np_random_seed legacy_gauss g S0 T r sigma q n_paths n_steps)
    = Ok (T / IZR n_steps, Sm) /\
    Forall (Forall (fun v => exists x, v = Num x /\ 0 < x)) (data Sm).
Proof.
  intros HS HT Hp Hs.
  destruct (simulate_paths_rows g S0 T r sigma q n_paths n_steps Hp Hs)
    as (Zs & _ & _ & _ & _ & Hsim).
  eexists. split; [exact Hsim|]. simpl.
  assert (Hdt : 0 <= T / IZR n_steps).
  { apply Rle_mult_inv_pos; [exact HT | apply (IZR_lt 0); lia]. }
  clear Hsim.
  induction (data Zs) as [|zrow rows IH]; simpl; constructor; [|exact IH].
  unfold gbm_path. constructor; [eauto | now apply gbm_from_positive].
Qed.

(** X8. With sigma = 0 and T >= 0 every path is the same curve: its value
    at step t is S0 * exp((r - q) * dt * t), whatever the draws (in exact
    arithmetic). *)
Theorem zero_volatility_paths g S0 T r q n_paths n_steps :
  0 <= T -> (0 <= n_paths)%Z -> (1 <= n_steps)%Z ->
  exists Sm,
    fst (simulate_paths np_random_seed legacy_gauss g S0 T r 0 q n_paths n_steps)
    = Ok (T / IZR n_steps, Sm) /\
    Forall
      (fun path => forall t, (t < Z.to_nat n_steps)%nat ->
         path !! t = Some (Num (S0 * exp ((r - q) * (T / IZR n_steps) * INR t))))
      (data Sm).
Proof.
  intros HT Hp Hs.
  destruct (simulate_paths_rows g S0 T r 0 q n_paths n_steps Hp Hs)
    as (Zs & _ & [_ Hrows] & _ & E1 & Hsim).
  eexists. split; [exact Hsim|]. simpl.
  assert (Hdt : 0 <= T / IZR n_steps).
  { apply Rle_mult_inv_pos; [exact HT | apply (IZR_lt 0); lia]. }
  clear Hsim.
  induction Hrows as [|zrow rows Hrow _ IH]; simpl; constructor; [|exact IH].
  intros t Ht. unfold gbm_path. destruct t as [|k]; simpl lookup.
  - simpl INR. now rewrite Rmult_0_r, exp_0, Rmult_1_r.
  - apply gbm_from_zero_vol; [exact Hdt|].
    destruct zrow as [|z0 zs]; simpl in *; lia.
Qed.

End SimulatorRuns.

(** ** The first-hit indices *)

(** The selected indices lie below the number of columns; they are at
    least 1 when the barrier is above the start of every row. *)
Lemma hit_indices_range threshold S0 (n : nat) (rows : list (list float64)) :
  Forall (fun row => length row = n) rows ->
  Forall (fun row => row !! O = Some (Num S0)) rows ->
  let B := map (map (fun v => np_ge v threshold)) rows in
  Forall (fun i => (i <= n - 1)%nat /\ (S0 < threshold -> (1 <= i)%nat))
    (mask_select (np_any_axis1 B) (map (fun b => default O (first_true b)) B)).
Proof.
  intros Hlen Hstart. cbv zeta.
  induction Hlen as [|row rows Hrow _ IH]; simpl; [constructor|].
  apply Forall_cons in Hstart as [H0 Hstart]. specialize (IH Hstart).
  destruct (existsb (fun b : bool => b) (map (fun v => np_ge v threshold) row)) eqn:Hany;
    [|exact IH].
  constructor; [|exact IH].
  apply row_any_hits in Hany. destruct (row_first_true_hits _ _ Hany) as (i & Hi).
  rewrite Hi. simpl. split.
  - apply first_true_lt in Hi. rewrite length_map in Hi. lia.
  - intros Ht. destruct i as [|i]; [exfalso | lia].
    apply row_first_true in Hi. destruct Hi as [(v & Hv & x & -> & Hx) _].
    rewrite H0 in Hv. injection Hv as <-. lra.
Qed.

Lemma hit_times_range threshold S0 dt (n : nat) (rows : list (list float64)) :
  0 <= dt ->
  Forall (fun row => length row = n) rows ->
  Forall (fun row => row !! O = Some (Num S0)) rows ->
  let B := map (map (fun v => np_ge v threshold)) rows in
  Forall (fun x => 0 <= x <= INR (n - 1) * dt /\ (S0 < threshold -> dt <= x))
    (map (fun i => INR i * dt)
       (mask_select (np_any_axis1 B) (map (fun b => default O (first_true b)) B))).
Proof.
  intros Hdt Hlen Hstart. cbv zeta. rewrite Forall_map.
  eapply Forall_impl; [exact (hit_indices_range threshold S0 n rows Hlen Hstart)|].
  intros i [Hi1 Hi2]. simpl. repeat split.
  - apply Rmult_le_pos; [apply pos_INR | exact Hdt].
  - apply Rmult_le_compat_r; [exact Hdt | now apply le_INR].
  - intros Ht. specialize (Hi2 Ht). apply le_INR in Hi2. simpl in Hi2.
    replace dt with (1 * dt) at 1 by ring. now apply Rmult_le_compat_r.
Qed.

Lemma spec_mean_bounds (lo hi : R) (l : list R) :
  l <> [] -> Forall (fun x => lo <= x <= hi) l -> lo <= spec_mean l <= hi.
Proof.
  intros Hne Hl. pose proof (Rsum_bounds lo hi l Hl) as [Hlo Hhi].
  assert (Hpos : 0 < INR (length l)).
  { apply lt_0_INR. destruct l; [contradiction | simpl; lia]. }
  unfold spec_mean. split.
  - apply Rmult_le_reg_r with (INR (length l)); [exact Hpos|].
    unfold Rdiv. rewrite Rmult_assoc, Rinv_l by lra. lra.
  - apply Rmult_le_reg_r with (INR (length l)); [exact Hpos|].
    unfold Rdiv. rewrite Rmult_assoc, Rinv_l by lra. lra.
Qed.

(** ** The three statistics *)




Lemma INR_to_nat (n : Z) : (0 <= n)%Z -> INR (Z.to_nat n) = IZR n.
Proof. intros H. rewrite INR_IZR_INZ, Z2Nat.id by assumption. reflexivity. Qed.

Section SimulatorStatistics.

Variable rng_state : Type.
Variable np_random_seed : Z -> rng_state.
Variable legacy_gauss : rng_state -> R * rng_state.

(** The three results over the hit mask [m]: the fraction of hits, the
    mean of the hit times, the discounted mean payoff. *)
Lemma monte_carlo_statistics g S0 K T r sigma threshold q n_paths n_steps :
  (1 <= n_paths)%Z -> (1 <= n_steps)%Z ->
  exists Sm,
    fst (simulate_paths np_random_seed legacy_gauss g S0 T r sigma q n_paths n_steps)
    = Ok (T / IZR n_steps, Sm) /\
    well_shaped Sm /\ length (data Sm) = Z.to_nat n_paths /\
    shape1 Sm = Z.to_nat n_steps /\ starts_at S0 Sm /\
    let m := np_any_axis1 (ge_mask Sm threshold) in
    let hit_times :=
      map (fun i => INR i * (T / IZR n_steps))
        (mask_select m (map (fun b => default O (first_true b)) (ge_mask Sm threshold))) in
    INR (length hit_times) = Rsum (map bool_R m) /\
    fst (monte_carlo_option_hit np_random_seed legacy_gauss
           g S0 K T r sigma threshold q n_paths n_steps)
    = Ok (Num (Rsum (map bool_R m) / IZR n_paths),
          (if decide (0 < length hit_times)%nat then Some (np_mean hit_times) else None),
          Num (Rsum (map bool_R m) / IZR n_paths * (threshold - K) * exp (- r * T))).
Proof.
  intros Hp Hs.
  destruct (monte_carlo_run rng_state np_random_seed legacy_gauss
              g S0 K T r sigma threshold q n_paths n_steps)
    as (Sm & Hsim & Hw & Hlen & E1 & Hst & Hrun); [lia | lia |].
  exists Sm. split; [exact Hsim|]. split; [exact Hw|]. split; [exact Hlen|].
  split; [exact E1|]. split; [exact Hst|]. intros m hit_times. split.
  - unfold hit_times. rewrite length_map. apply mask_select_count.
    unfold m, np_any_axis1. now rewrite !length_map.
  - rewrite Hrun, reduce_paths_ok by (rewrite E1; lia). cbv zeta. fold m. fold hit_times.
    destruct (paths_nonempty Sm threshold n_paths Hp Hlen) as [Hne Hpos]. fold m in Hne, Hpos.
    rewrite !mean_of_mask_nonempty by exact Hne.
    unfold spec_mean. rewrite !length_map, Rsum_payoff.
    assert (Hn : INR (length m) = IZR n_paths).
    { unfold m. rewrite hit_mask_length, Hlen. apply INR_to_nat. lia. }
    rewrite Hn. simpl. do 3 f_equal. field. apply not_0_IZR. lia.
Qed.

(** X9. In a run with n_paths >= 1 and n_steps >= 1, hit_prob is the number
    of hitting paths (the number of hit times) divided by n_paths, and it
    lies between 0 and 1. *)
Theorem hit_probability_is_hit_fraction g S0 K T r sigma threshold q n_paths n_steps :
  (1 <= n_paths)%Z -> (1 <= n_steps)%Z ->
  exists Sm ts hit_prob avg_hit_time PV,
    fst (simulate_paths np_random_seed legacy_gauss g S0 T r sigma q n_paths n_steps)
    = Ok (T / IZR n_steps, Sm) /\
    fst (monte_carlo_option_hit np_random_seed legacy_gauss
           g S0 K T r sigma threshold q n_paths n_steps)
    = Ok (Num hit_prob, avg_hit_time, PV) /\
    spec_hit_times threshold (T / IZR n_steps) (data Sm) ts /\
    hit_prob = INR (length ts) / IZR n_paths /\
    0 <= hit_prob <= 1.
Proof.
  intros Hp Hs.
  destruct (monte_carlo_statistics g S0 K T r sigma threshold q n_paths n_steps Hp Hs)
    as (Sm & Hsim & _ & Hlen & _ & _ & Hstat).
  cbv zeta in Hstat. destruct Hstat as [Hcount Hrun].
  pose proof (hit_times_spec threshold (T / IZR n_steps) (data Sm)) as Hts.
  cbv zeta in Hts. fold (ge_mask Sm threshold) in Hts.
  exists Sm. do 4 eexists. split; [exact Hsim|]. split; [exact Hrun|].
  split; [exact Hts|]. split; [now rewrite Hcount|].
  pose proof (Rsum_bool_bounds (np_any_axis1 (ge_mask Sm threshold))) as Hb.
  rewrite hit_mask_length, Hlen, INR_to_nat in Hb by lia.
  assert (Hn : 0 < IZR n_paths) by (apply (IZR_lt 0); lia).
  split.
  - apply Rle_mult_inv_pos; [apply Hb | exact Hn].
  - apply Rmult_le_reg_r with (IZR n_paths); [exact Hn|].
    unfold Rdiv. rewrite Rmult_assoc, Rinv_l by lra. lra.
Qed.

(** X10. In a run with n_paths >= 1 and n_steps >= 1 these are equivalent:
    no path reaches the threshold; hit_prob is 0; avg_hit_time is None.
    Then PV is 0. *)
Theorem no_hit_iff_zero_probability g S0 K T r sigma threshold q n_paths n_steps :
  (1 <= n_paths)%Z -> (1 <= n_steps)%Z ->
  exists Sm hit_prob avg_hit_time PV,
    fst (simulate_paths np_random_seed legacy_gauss g S0 T r sigma q n_paths n_steps)
    = Ok (T / IZR n_steps, Sm) /\
    fst (monte_carlo_option_hit np_random_seed legacy_gauss
           g S0 K T r sigma threshold q n_paths n_steps)
    = Ok (Num hit_prob, avg_hit_time, Num PV) /\
    (Forall (fun path => ~ path_hits threshold path) (data Sm) <-> hit_prob = 0) /\
    (avg_hit_time = None <-> hit_prob = 0) /\
    (hit_prob = 0 -> PV = 0).
Proof.
  intros Hp Hs.
  destruct (monte_carlo_statistics g S0 K T r sigma threshold q n_paths n_steps Hp Hs)
    as (Sm & Hsim & _ & Hlen & _ & _ & Hstat).
  cbv zeta in Hstat. destruct Hstat as [Hcount Hrun].
  set (m := np_any_axis1 (ge_mask Sm threshold)) in *.
  set (hit_times := map (fun i => INR i * (T / IZR n_steps)) _) in *.
  assert (Hn : 0 < IZR n_paths) by (apply (IZR_lt 0); lia).
  assert (Hzero : Rsum (map bool_R m) / IZR n_paths = 0 <-> Rsum (map bool_R m) = 0).
  { split; intros H.
    - apply Rmult_eq_compat_r with (r := IZR n_paths) in H.
      unfold Rdiv in H. rewrite Rmult_assoc, Rinv_l in H by lra. lra.
    - rewrite H. unfold Rdiv. ring. }
  exists Sm. do 3 eexists. split; [exact Hsim|]. split; [exact Hrun|].
  split; [|split].
  - rewrite Hzero. split.
    + intros Hnone. unfold m, ge_mask. rewrite (hit_mask_none threshold (data Sm) Hnone).
      rewrite map_replicate, Rsum_replicate. simpl. ring.
    + intros Hsum. apply Forall_Exists_neg. intros Hex.
      pose proof (Rsum_bool_some m (hit_mask_some threshold (data Sm) Hex)). lra.
  - rewrite Hzero, <- Hcount. split.
    + destruct (decide (0 < length hit_times)%nat) as [|Hz]; [discriminate|].
      intros _. replace (length hit_times) with O by lia. reflexivity.
    + intros H0. destruct (decide (0 < length hit_times)%nat) as [Hpos|]; [|reflexivity].
      apply lt_0_INR in Hpos. lra.
  - intros ->. ring.
Qed.

(** The mean hit time of a run with T >= 0. *)
Lemma monte_carlo_avg_hit_time g S0 K T r sigma threshold q n_paths n_steps :
  0 <= T -> (1 <= n_paths)%Z -> (1 <= n_steps)%Z ->
  exists hit_prob avg_hit_time PV,
    fst (monte_carlo_option_hit np_random_seed legacy_gauss
           g S0 K T r sigma threshold q n_paths n_steps)
    = Ok (Num hit_prob, avg_hit_time, PV) /\
    (avg_hit_time = None <-> hit_prob = 0) /\
    forall a, avg_hit_time = Some a ->
      exists x, a = Num x /\ 0 <= x <= T - T / IZR n_steps /\
                (S0 < threshold -> T / IZR n_steps <= x).
Proof.
  intros HT Hp Hs.
  destruct (monte_carlo_statistics g S0 K T r sigma threshold q n_paths n_steps Hp Hs)
    as (Sm & Hsim & [_ Hrows] & Hlen & E1 & Hst & Hstat).
  cbv zeta in Hstat. destruct Hstat as [Hcount Hrun].
  assert (Hn : 0 < IZR n_steps) by (apply (IZR_lt 0); lia).
  assert (Hdt : 0 <= T / IZR n_steps) by (apply Rle_mult_inv_pos; assumption).
  assert (Hnp : 0 < IZR n_paths) by (apply (IZR_lt 0); lia).
  pose proof (hit_times_range threshold S0 (T / IZR n_steps) (shape1 Sm) (data Sm)
                Hdt Hrows Hst) as Hts.
  cbv zeta in Hts. fold (ge_mask Sm threshold) in Hts.
  set (m := np_any_axis1 (ge_mask Sm threshold)) in *.
  set (hit_times := map (fun i => INR i * (T / IZR n_steps)) _) in *.
  do 3 eexists. split; [exact Hrun|]. split.
  - rewrite <- Hcount. split.
    + destruct (decide (0 < length hit_times)%nat) as [|Hz]; [discriminate|].
      intros _. replace (length hit_times) with O by lia. simpl. unfold Rdiv. ring.
    + intros H0. destruct (decide (0 < length hit_times)%nat) as [Hpos|]; [|reflexivity].
      apply lt_0_INR in Hpos. exfalso.
      apply Rmult_eq_compat_r with (r := IZR n_paths) in H0.
      unfold Rdiv in H0. rewrite Rmult_assoc, Rinv_l in H0 by lra. lra.
  - intros a Ha.
    destruct (decide (0 < length hit_times)%nat) as [Hpos|]; [|discriminate].
    injection Ha as <-.
    assert (Hne : hit_times <> [])
      by (destruct hit_times; [simpl in Hpos; lia | discriminate]).
    rewrite np_mean_nonempty by exact Hne. eexists. split; [reflexivity|].
    assert (Hlast : INR (shape1 Sm - 1) * (T / IZR n_steps) = T - T / IZR n_steps).
    { rewrite E1, minus_INR, INR_to_nat by lia. simpl. field. lra. }
    rewrite Hlast in Hts. split.
    + apply spec_mean_bounds; [exact Hne|].
      eapply Forall_impl; [exact Hts|]. intros x [Hx _]. exact Hx.
    + intros Ht.
      apply (spec_mean_bounds (T / IZR n_steps) (T - T / IZR n_steps)); [exact Hne|].
      eapply Forall_impl; [exact Hts|]. intros x [Hx Hx']. specialize (Hx' Ht). lra.
Qed.

(** X11. In a run with T >= 0, n_paths >= 1 and n_steps >= 1, an
    avg_hit_time that is not None is a number between 0 and T - dt,
    dt = T / n_steps: the last step of a path counts as time T - dt, so T
    itself is never reported.  With the threshold above S0 it is at
    least dt. *)
Theorem avg_hit_time_range g S0 K T r sigma threshold q n_paths n_steps :
  0 <= T -> (1 <= n_paths)%Z -> (1 <= n_steps)%Z ->
  exists hit_prob avg_hit_time PV,
    fst (monte_carlo_option_hit np_random_seed legacy_gauss
           g S0 K T r sigma threshold q n_paths n_steps)
    = Ok (hit_prob, avg_hit_time, PV) /\
    forall a, avg_hit_time = Some a ->
      exists x, a = Num x /\ 0 <= x <= T - T / IZR n_steps /\
                (S0 < threshold -> T / IZR n_steps <= x).
Proof.
  intros HT Hp Hs.
  destruct (monte_carlo_avg_hit_time g S0 K T r sigma threshold q n_paths n_steps HT Hp Hs)
    as (hit_prob & avg_hit_time & PV & Hrun & _ & Hrange).
  do 3 eexists. split; [exact Hrun | exact Hrange].
Qed.

(** X12. With threshold <= S0, n_paths >= 1 and n_steps >= 1 the simulator
    returns (1.0, 0.0, (threshold - K) * exp(-r*T)): every path hits at
    step 0, whatever T, r, sigma, q and the draws. *)
Theorem monte_carlo_at_or_below_spot g S0 K T r sigma threshold q n_paths n_steps :
  threshold <= S0 -> (1 <= n_paths)%Z -> (1 <= n_steps)%Z ->
  fst (monte_carlo_option_hit np_random_seed legacy_gauss
         g S0 K T r sigma threshold q n_paths n_steps)
  = Ok (Num 1, Some (Num 0), Num ((threshold - K) * exp (- r * T))).
Proof.
  intros Ht Hp Hs.
  destruct (monte_carlo_run rng_state np_random_seed legacy_gauss
              g S0 K T r sigma threshold q n_paths n_steps)
    as (Sm & _ & _ & Hlen & E1 & Hst & ->); [lia | lia |].
  apply (reduce_paths_hit_at_start Sm S0); [lia | lia | exact Hst | exact Ht].
Qed.


(** X14. What the call does to NumPy's global generator: for n_steps = 0
    nothing (the division fails first); for a negative size, with
    n_steps <> 0, it is left freshly seeded with 42; in a run that returns
    it is left n_paths * n_steps draws after the seed 42.  The state before
    the call and the contract parameters play no part. *)
Theorem monte_carlo_generator_state g S0 K T r sigma threshold q n_paths n_steps :
  let after := snd (monte_carlo_option_hit np_random_seed legacy_gauss
                      g S0 K T r sigma threshold q n_paths n_steps) in
  (n_steps = 0%Z -> after = g) /\
  (n_steps <> 0%Z -> (n_paths < 0 \/ n_steps < 0)%Z -> after = np_random_seed 42) /\
  ((0 <= n_paths)%Z -> (1 <= n_steps)%Z ->
     after = Nat.iter (Z.to_nat n_paths * Z.to_nat n_steps)
               (fun s => snd (legacy_gauss s)) (np_random_seed 42)).
Proof.
  cbv zeta.
  assert (E : snd (monte_carlo_option_hit np_random_seed legacy_gauss
                     g S0 K T r sigma threshold q n_paths n_steps)
              = snd (simulate_paths np_random_seed legacy_gauss
                       g S0 T r sigma q n_paths n_steps)).
  { unfold monte_carlo_option_hit.
    destruct (simulate_paths np_random_seed legacy_gauss g S0 T r sigma q n_paths n_steps).
    reflexivity. }
  rewrite E. unfold simulate_paths. repeat split.
  - intros ->. now rewrite py_div_zero.
  - intros Hne Hneg. rewrite py_div_ok by now apply IZR_steps_neq_0.
    now rewrite np_random_normal_negative.
  - intros Hp Hs. rewrite py_div_ok by (apply IZR_steps_neq_0; lia).
    unfold np_random_normal.
    destruct (decide (n_paths < 0 \/ n_steps < 0)%Z) as [[?|?]|_]; [lia | lia |].
    rewrite <- (draw_rows_state rng_state legacy_gauss).
    destruct (draw_rows legacy_gauss (np_random_seed 42) (Z.to_nat n_paths) (Z.to_nat n_steps))
      as [rows g'].
    destruct (build_paths S0 r q sigma (T / IZR n_steps) n_steps _); reflexivity.
Qed.

End SimulatorStatistics.

(** ** Paths from a scaled start *)

Lemma np_mul_scale lam (v w : float64) :
  np_mul (np_mul (Num lam) v) w = np_mul (Num lam) (np_mul v w).
Proof. destruct v as [x|], w as [y|]; simpl; try reflexivity. f_equal. ring. Qed.

Lemma gbm_from_scale lam r q sigma dt prev zs :
  gbm_from r q sigma dt (np_mul (Num lam) prev) zs
  = map (np_mul (Num lam)) (gbm_from r q sigma dt prev zs).
Proof.
  revert prev. induction zs as [|z zs IH]; intros prev; cbn [gbm_from map]; [reflexivity|].
  rewrite np_mul_scale. f_equal. apply IH.
Qed.

Lemma gbm_path_scale lam S0 r q sigma dt zrow :
  gbm_path (lam * S0) r q sigma dt zrow
  = map (np_mul (Num lam)) (gbm_path S0 r q sigma dt zrow).
Proof.
  unfold gbm_path. simpl. f_equal.
  exact (gbm_from_scale lam r q sigma dt (Num S0) (tail zrow)).
Qed.

Lemma np_ge_scale lam threshold v :
  0 < lam -> np_ge (np_mul (Num lam) v) (lam * threshold) = np_ge v threshold.
Proof.
  intros Hl. destruct v as [x|]; simpl; [|reflexivity].
  unfold Rle_bool.
  destruct (Rle_dec (lam * threshold) (lam * x)) as [H|H],
           (Rle_dec threshold x) as [H'|H']; try reflexivity; exfalso.
  - apply H'. now apply Rmult_le_reg_l with lam.
  - apply H. apply Rmult_le_compat_l; lra.
Qed.

Lemma ge_row_scale lam threshold (path : list float64) :
  0 < lam ->
  map (fun v => np_ge v (lam * threshold)) (map (np_mul (Num lam)) path)
  = map (fun v => np_ge v threshold) path.
Proof.
  intros Hl. induction path as [|v path IH]; cbn [map]; [reflexivity|].
  now rewrite np_ge_scale, IH.
Qed.

Lemma ge_mask_scale lam threshold S0 r q sigma dt n0 n1 (rows : list (list R)) :
  0 < lam ->
  ge_mask (NdArray n0 n1 (map (gbm_path (lam * S0) r q sigma dt) rows)) (lam * threshold)
  = ge_mask (NdArray n0 n1 (map (gbm_path S0 r q sigma dt) rows)) threshold.
Proof.
  intros Hl. unfold ge_mask. cbn [data].
  induction rows as [|zrow rows IH]; cbn [map]; [reflexivity|].
  now rewrite IH, gbm_path_scale, ge_row_scale.
Qed.

Section SimulatorScaling.

Variable rng_state : Type.
Variable np_random_seed : Z -> rng_state.
Variable legacy_gauss : rng_state -> R * rng_state.

(** X18. The simulator does not depend on the unit of price: in a run with
    n_paths >= 1 and n_steps >= 1, multiplying S0, K and the threshold by
    the same lam > 0 leaves hit_prob and avg_hit_time as they are and
    multiplies PV by lam (in exact arithmetic). *)
Theorem monte_carlo_scale_invariant
    g1 g2 lam S0 K T r sigma threshold q n_paths n_steps :
  0 < lam -> (1 <= n_paths)%Z -> (1 <= n_steps)%Z ->
  exists hit_prob avg_hit_time PV,
    fst (monte_carlo_option_hit np_random_seed legacy_gauss
           g1 S0 K T r sigma threshold q n_paths n_steps)
    = Ok (hit_prob, avg_hit_time, Num PV) /\
    fst (monte_carlo_option_hit np_random_seed legacy_gauss
           g2 (lam * S0) (lam * K) T r sigma (lam * threshold) q n_paths n_steps)
    = Ok (hit_prob, avg_hit_time, Num (lam * PV)).
Proof.
  intros Hl Hp Hs.
  destruct (simulate_paths_rows rng_state np_random_seed legacy_gauss
              g1 S0 T r sigma q n_paths n_steps)
    as (Zs & HZ & [HlenZ _] & E0 & E1 & Hsim1); [lia | lia |].
  destruct (simulate_paths_rows rng_state np_random_seed legacy_gauss
              g2 (lam * S0) T r sigma q n_paths n_steps)
    as (Zs' & HZ' & _ & _ & _ & Hsim2); [lia | lia |].
  rewrite HZ in HZ'. injection HZ' as <-.
  rewrite !monte_carlo_option_hit_unfold, Hsim1, Hsim2. simpl.
  rewrite !reduce_paths_ok by (simpl; lia). cbv zeta.
  rewrite (ge_mask_scale lam threshold) by exact Hl.
  set (Sm := NdArray (shape0 Zs) (shape1 Zs)
               (map (gbm_path S0 r q sigma (T / IZR n_steps)) (data Zs))).
  set (m := np_any_axis1 (ge_mask Sm threshold)).
  assert (Hne : (0 < length m)%nat).
  { unfold m. rewrite hit_mask_length. unfold Sm. simpl. rewrite length_map. lia. }
  rewrite !(mean_of_mask_nonempty (fun h : bool => if h then _ else 0)) by exact Hne.
  do 3 eexists. split; [reflexivity|]. simpl. do 3 f_equal.
  unfold spec_mean. rewrite !length_map, !Rsum_payoff. field.
  apply not_0_INR. lia.
Qed.

End SimulatorScaling.

(** ** The application *)

Lemma verdict_of_cases (diff : R) :
  (verdict_of diff = FAIRLY_PRICED <-> Rabs diff < 0.01) /\
  (verdict_of diff = UNDERVALUED <-> 0.01 <= diff) /\
  (verdict_of diff = OVERVALUED <-> diff <= - 0.01).
Proof.
  unfold verdict_of, Rlt_bool.
  destruct (Rlt_dec (Rabs diff) 0.01) as [Hin|Hout]; simpl.
  - pose proof (Rabs_def2 _ _ Hin) as [H1 H2].
    split; [tauto|]. split; (split; [intros H; discriminate H | intros; lra]).
  - assert (Hcases : 0.01 <= diff \/ diff <= - 0.01).
    { destruct (Rle_dec 0.01 diff) as [|Hn]; [now left | right].
      destruct (Rle_dec diff (- 0.01)) as [|Hm]; [assumption | exfalso].
      apply Hout, Rabs_def1; lra. }
    destruct (Rlt_dec 0 diff) as [Hpos|Hneg]; simpl.
    + split; [split; [intros H; discriminate H | contradiction]|].
      split; [split; [intros _; lra | reflexivity]|].
      split; [intros H; discriminate H | intros; lra].
    + split; [split; [intros H; discriminate H | contradiction]|].
      split; [split; [intros H; discriminate H | intros; lra]|].
      split; [intros _; lra | reflexivity].
Qed.

Section ApplicationFacts.

Variable rng_state : Type.
Variable np_random_seed : Z -> rng_state.
Variable legacy_gauss : rng_state -> R * rng_state.

Lemma days_to_years (days : Z) : (1 <= days)%Z -> 0 < IZR days / 365.
Proof. intros H. apply Rdiv_lt_0_compat; [apply (IZR_lt 0); lia | lra]. Qed.

(** [run] where the pricer returns a fair value other than 0: the result
    lines, over the simulator's three results. *)
Lemma run_results g S0 K r_percent q_percent sigma_percent bid ask days multiple C0 :
  (1 <= days)%Z ->
  black_scholes_call math_erf S0 K (IZR days / 365)
    (r_percent / 100) (sigma_percent / 100) (q_percent / 100) = Ok C0 ->
  C0 <> 0 ->
  exists hit_prob avg_hit_time PV,
    fst (monte_carlo_option_hit np_random_seed legacy_gauss g S0 K (IZR days / 365)
           (r_percent / 100) (sigma_percent / 100) ((bid + ask) / 2 * multiple)
           (q_percent / 100) 20000 126)
    = Ok (Num hit_prob, avg_hit_time, PV) /\
    (avg_hit_time = None <-> hit_prob = 0) /\
    (forall a, avg_hit_time = Some a ->
       exists x, a = Num x /\ ((bid + ask) / 2 * multiple <= S0 <-> x = 0)) /\
    ((bid + ask) / 2 * multiple <= S0 -> hit_prob = 1) /\
    fst (run np_random_seed legacy_gauss
           g S0 K r_percent q_percent sigma_percent bid ask days multiple)
    = Results
        (Report (verdict_of ((bid + ask) / 2 - C0)) ((bid + ask) / 2 - C0)
           (100 * ((bid + ask) / 2 - C0) / C0) ((bid + ask) / 2) bid ask C0
           ((bid + ask) / 2 * multiple) PV (Num (hit_prob * 100))
           (if truth_value avg_hit_time then avg_hit_time else None)
           (IZR days / 365)).
Proof.
  intros Hdays Hprice HC0. pose proof (days_to_years days Hdays) as HT.
  set (T := IZR days / 365) in *.
  set (threshold := (bid + ask) / 2 * multiple).
  destruct (monte_carlo_avg_hit_time rng_state np_random_seed legacy_gauss
              g S0 K T (r_percent / 100) (sigma_percent / 100) threshold (q_percent / 100)
              20000 126) as (hit_prob & avg_hit_time & PV & Hrun & Hnone & Hrange);
    [lra | lia | lia |].
  assert (Hdt : 0 < T / IZR 126) by (apply Rdiv_lt_0_compat; lra).
  exists hit_prob, avg_hit_time, PV. split; [exact Hrun|]. split; [exact Hnone|].
  assert (Hbelow : threshold <= S0 -> hit_prob = 1 /\ avg_hit_time = Some (Num 0)).
  { intros Ht.
    pose proof (monte_carlo_run rng_state np_random_seed legacy_gauss
                  g S0 K T (r_percent / 100) (sigma_percent / 100) threshold
                  (q_percent / 100) 20000 126 ltac:(lia) ltac:(lia))
      as (Sm & _ & _ & Hlen & E1 & Hst & Hred).
    rewrite (reduce_paths_hit_at_start Sm S0) in Hred by (try assumption; lia).
    rewrite Hred in Hrun. injection Hrun as <- <- _. split; reflexivity. }
  split; [|split].
  - intros a Ha. destruct (Hrange a Ha) as (x & -> & Hx & Hlow).
    exists x. split; [reflexivity|]. split.
    + intros Ht. destruct (Hbelow Ht) as [_ Hz]. rewrite Hz in Ha. now injection Ha.
    + intros ->. destruct (Rle_dec threshold S0) as [|Hn]; [assumption|].
      specialize (Hlow ltac:(lra)). lra.
  - intros Ht. now destruct (Hbelow Ht).
  - unfold run. fold T. fold threshold.
    rewrite Rle_bool_false by exact HT. rewrite Hprice.
    destruct (monte_carlo_option_hit np_random_seed legacy_gauss g S0 K T
                (r_percent / 100) (sigma_percent / 100) threshold (q_percent / 100)
                20000 126) as [res g'].
    simpl in Hrun. subst res. rewrite py_div_ok by exact HC0. reflexivity.
Qed.

(** X15. [run] with an expiration date not after today writes that the
    expiration must be in the future and calls neither the pricer nor the
    simulator (the generator is untouched).  With a later date it writes an
    error exactly when the pricer raises, or returns the fair value 0 (the
    division for the percentage then raises ZeroDivisionError); the
    simulator never fails there. *)
Theorem run_outcomes g S0 K r_percent q_percent sigma_percent bid ask days multiple :
  let price := black_scholes_call math_erf S0 K (IZR days / 365)
                 (r_percent / 100) (sigma_percent / 100) (q_percent / 100) in
  let written := run np_random_seed legacy_gauss
                   g S0 K r_percent q_percent sigma_percent bid ask days multiple in
  ((days <= 0)%Z -> written = (ExpirationNotInFuture, g)) /\
  ((1 <= days)%Z -> forall e,
     fst written = Error e <-> price = Raise e \/ (price = Ok 0 /\ e = ZeroDivisionError)).
Proof.
  cbv zeta. split.
  - intros Hdays. unfold run. rewrite Rle_bool_true; [reflexivity|].
    apply (IZR_le _ 0) in Hdays. unfold Rdiv.
    replace 0 with (0 * / 365) by ring. apply Rmult_le_compat_r; lra.
  - intros Hdays e.
    destruct (black_scholes_call math_erf S0 K (IZR days / 365) (r_percent / 100)
                (sigma_percent / 100) (q_percent / 100)) as [C0|e0] eqn:Hprice.
    + destruct (Req_dec_T C0 0) as [->|HC0].
      * pose proof (days_to_years days Hdays) as HT.
        pose proof (monte_carlo_option_hit_returns rng_state np_random_seed legacy_gauss
                      g S0 K (IZR days / 365) (r_percent / 100) (sigma_percent / 100)
                      ((bid + ask) / 2 * multiple) (q_percent / 100) 20000 126
                      ltac:(lia) ltac:(lia)) as [[[hp aht] pv] Hrun].
        unfold run. rewrite Rle_bool_false by exact HT. rewrite Hprice.
        destruct (monte_carlo_option_hit np_random_seed legacy_gauss g S0 K
                    (IZR days / 365) (r_percent / 100) (sigma_percent / 100)
                    ((bid + ask) / 2 * multiple) (q_percent / 100) 20000 126) as [res g'].
        simpl in Hrun. subst res. rewrite py_div_zero. simpl. split.
        -- intros [= <-]. right. split; reflexivity.
        -- intros [[=] | [_ ->]]. reflexivity.
      * destruct (run_results g S0 K r_percent q_percent sigma_percent bid ask days multiple
                    C0 Hdays Hprice HC0) as (hp & aht & pv & _ & _ & _ & _ & ->).
        split; [discriminate|]. intros [[=] | [[= E] _]]. contradiction.
    + pose proof (days_to_years days Hdays) as HT.
      unfold run. rewrite Rle_bool_false by exact HT. rewrite Hprice. simpl. split.
      * intros [= <-]. now left.
      * intros [[= <-] | [[=] _]]. reflexivity.
Qed.

(** X16. Where [run] writes its results (date after today, fair value
    C0 <> 0), the average hit time reads N/A exactly when the threshold
    midpoint * multiple is at or below S0, or the hit probability is 0.
    In the first case the hit probability shown is 100%: the simulator's
    average 0.0 is taken as absent. *)
Theorem run_avg_hit_time_line
    g S0 K r_percent q_percent sigma_percent bid ask days multiple C0 :
  (1 <= days)%Z ->
  black_scholes_call math_erf S0 K (IZR days / 365)
    (r_percent / 100) (sigma_percent / 100) (q_percent / 100) = Ok C0 ->
  C0 <> 0 ->
  exists rep,
    fst (run np_random_seed legacy_gauss
           g S0 K r_percent q_percent sigma_percent bid ask days multiple)
    = Results rep /\
    (rep_avg_hit_time rep = None <->
       (bid + ask) / 2 * multiple <= S0 \/ rep_hit_probability rep = Num 0) /\
    ((bid + ask) / 2 * multiple <= S0 -> rep_hit_probability rep = Num 100).
Proof.
  intros Hdays Hprice HC0.
  destruct (run_results g S0 K r_percent q_percent sigma_percent bid ask days multiple
              C0 Hdays Hprice HC0) as (hp & aht & pv & _ & Hnone & Hsome & Hone & ->).
  eexists. split; [reflexivity|]. simpl. split.
  - split.
    + destruct aht as [a|]; simpl.
      * destruct (Hsome a eq_refl) as (x & -> & Hx). simpl.
        destruct (Req_dec_T x 0) as [->|Hnz].
        -- intros _. left. now apply Hx.
        -- rewrite Req_bool_false by exact Hnz. discriminate.
      * intros _. right. f_equal. rewrite (proj1 Hnone eq_refl). ring.
    + intros [Ht | Hz].
      * destruct aht as [a|]; [|reflexivity].
        destruct (Hsome a eq_refl) as (x & -> & Hx). simpl.
        now rewrite (proj1 Hx Ht), Req_bool_true.
      * injection Hz as Hz. assert (H0 : hp = 0) by lra.
        now rewrite (proj2 Hnone H0).
  - intros Ht. rewrite (Hone Ht). f_equal. ring.
Qed.

(** X17. Where [run] writes its results, the fair value shown is the
    pricer's C0 and the verdict is FAIRLY PRICED exactly when
    |midpoint - C0| < 0.01, UNDERVALUED exactly when midpoint >= C0 + 0.01
    and OVERVALUED exactly when midpoint <= C0 - 0.01. *)
Theorem run_verdict g S0 K r_percent q_percent sigma_percent bid ask days multiple C0 :
  (1 <= days)%Z ->
  black_scholes_call math_erf S0 K (IZR days / 365)
    (r_percent / 100) (sigma_percent / 100) (q_percent / 100) = Ok C0 ->
  C0 <> 0 ->
  exists rep,
    fst (run np_random_seed legacy_gauss
           g S0 K r_percent q_percent sigma_percent bid ask days multiple)
    = Results rep /\
    rep_fair_value rep = C0 /\
    (rep_verdict rep = FAIRLY_PRICED <-> Rabs ((bid + ask) / 2 - C0) < 0.01) /\
    (rep_verdict rep = UNDERVALUED <-> C0 + 0.01 <= (bid + ask) / 2) /\
    (rep_verdict rep = OVERVALUED <-> (bid + ask) / 2 <= C0 - 0.01).
Proof.
  intros Hdays Hprice HC0.
  destruct (run_results g S0 K r_percent q_percent sigma_percent bid ask days multiple
              C0 Hdays Hprice HC0) as (hp & aht & pv & _ & _ & _ & _ & ->).
  eexists. split; [reflexivity|]. simpl. split; [reflexivity|].
  destruct (verdict_of_cases ((bid + ask) / 2 - C0)) as (H1 & H2 & H3).
  split; [exact H1|]. split.
  - rewrite H2. split; intros; lra.
  - rewrite H3. split; intros; lra.
Qed.

End ApplicationFacts.


(** ** The further properties on concrete inputs *)




Lemma black_scholes_call_homogeneous_witness :
  exists price,
    black_scholes_call math_erf 100 100 (1/2) (45/1000) (3/10) 0 = Ok price /\
    black_scholes_call math_erf (-1 * 100) (-1 * 100) (1/2) (45/1000) (3/10) 0
    = Ok (-1 * price).
Proof. apply black_scholes_call_homogeneous; lra. Defined.

Lemma paths_follow_the_recurrence_witness :
  exists Zs Sm,
    fst (np_random_normal sample_gauss (sample_seed 42) 20000 126) = Ok Zs /\
    fst (simulate_paths sample_seed sample_gauss O 100 (1/2) (45/1000) (3/10) 0 20000 126)
    = Ok (1/2 / IZR 126, Sm) /\
    Forall2
      (fun zrow path =>
         length path = Z.to_nat 126 /\
         path !! O = Some (Num 100) /\
         forall t z, (1 <= t)%nat -> zrow !! t = Some z ->
           exists prev,
             path !! (t - 1)%nat = Some prev /\
             path !! t
             = Some (np_mul prev (gbm_growth (45/1000) 0 (3/10) (1/2 / IZR 126) z)))
      (data Zs) (data Sm).
Proof. apply paths_follow_the_recurrence; lia. Defined.

Lemma paths_stay_positive_witness :
  exists Sm,
    fst (simulate_paths sample_seed sample_gauss O 100 (1/2) (45/1000) (3/10) 0 20000 126)
    = Ok (1/2 / IZR 126, Sm) /\
    Forall (Forall (fun v => exists x, v = Num x /\ 0 < x)) (data Sm).
Proof. apply paths_stay_positive; [lra | lra | lia | lia]. Defined.

Lemma zero_volatility_paths_witness :
  exists Sm,
    fst (simulate_paths sample_seed sample_gauss O 100 (1/2) (45/1000) 0 0 20000 126)
    = Ok (1/2 / IZR 126, Sm) /\
    Forall
      (fun path => forall t, (t < Z.to_nat 126)%nat ->
         path !! t = Some (Num (100 * exp ((45/1000 - 0) * (1/2 / IZR 126) * INR t))))
      (data Sm).
Proof. apply zero_volatility_paths; [lra | lia | lia]. Defined.

Lemma hit_probability_is_hit_fraction_witness :
  exists Sm ts hit_prob avg_hit_time PV,
    fst (simulate_paths sample_seed sample_gauss O 100 (1/2) (45/1000) (3/10) 0 20000 126)
    = Ok (1/2 / IZR 126, Sm) /\
    fst (monte_carlo_option_hit sample_seed sample_gauss
           O 100 100 (1/2) (45/1000) (3/10) 110 0 20000 126)
    = Ok (Num hit_prob, avg_hit_time, PV) /\
    spec_hit_times 110 (1/2 / IZR 126) (data Sm) ts /\
    hit_prob = INR (length ts) / IZR 20000 /\
    0 <= hit_prob <= 1.
Proof. apply hit_probability_is_hit_fraction; lia. Defined.

Lemma no_hit_iff_zero_probability_witness :
  exists Sm hit_prob avg_hit_time PV,
    fst (simulate_paths sample_seed sample_gauss O 100 (1/2) (45/1000) (3/10) 0 20000 126)
    = Ok (1/2 / IZR 126, Sm) /\
    fst (monte_carlo_option_hit sample_seed sample_gauss
           O 100 100 (1/2) (45/1000) (3/10) 110 0 20000 126)
    = Ok (Num hit_prob, avg_hit_time, Num PV) /\
    (Forall (fun path => ~ path_hits 110 path) (data Sm) <-> hit_prob = 0) /\
    (avg_hit_time = None <-> hit_prob = 0) /\
    (hit_prob = 0 -> PV = 0).
Proof. apply no_hit_iff_zero_probability; lia. Defined.

Lemma avg_hit_time_range_witness :
  exists hit_prob avg_hit_time PV,
    fst (monte_carlo_option_hit sample_seed sample_gauss
           O 100 100 (1/2) (45/1000) (3/10) 110 0 20000 126)
    = Ok (hit_prob, avg_hit_time, PV) /\
    forall a, avg_hit_time = Some a ->
      exists x, a = Num x /\ 0 <= x <= 1/2 - 1/2 / IZR 126 /\
                (100 < 110 -> 1/2 / IZR 126 <= x).
Proof. apply avg_hit_time_range; [lra | lia | lia]. Defined.

Lemma monte_carlo_at_or_below_spot_witness :
  fst (monte_carlo_option_hit sample_seed sample_gauss
         O 100 100 (1/2) (45/1000) (3/10) 95 0 20000 126)
  = Ok (Num 1, Some (Num 0), Num ((95 - 100) * exp (- (45/1000) * (1/2)))).
Proof. apply monte_carlo_at_or_below_spot; [lra | lia | lia]. Defined.


Lemma monte_carlo_scale_invariant_witness :
  exists hit_prob avg_hit_time PV,
    fst (monte_carlo_option_hit sample_seed sample_gauss
           O 100 100 (1/2) (45/1000) (3/10) 110 0 20000 126)
    = Ok (hit_prob, avg_hit_time, Num PV) /\
    fst (monte_carlo_option_hit sample_seed sample_gauss
           (S O) (2 * 100) (2 * 100) (1/2) (45/1000) (3/10) (2 * 110) 0 20000 126)
    = Ok (hit_prob, avg_hit_time, Num (2 * PV)).
Proof. apply monte_carlo_scale_invariant; [lra | lia | lia]. Defined.

Lemma run_outcomes_witness :
  run sample_seed sample_gauss O 100 0 (45/10) 0 30 5 6 0 (3/2)
  = (ExpirationNotInFuture, O).
Proof.
  apply (run_outcomes nat sample_seed sample_gauss O 100 0 (45/10) 0 30 5 6 0 (3/2)).
  lia.
Defined.

Lemma run_avg_hit_time_line_witness :
  exists rep,
    fst (run sample_seed sample_gauss O 100 100 (45/10) 0 30 5 6 30 (3/2)) = Results rep /\
    (rep_avg_hit_time rep = None <->
       (5 + 6) / 2 * (3/2) <= 100 \/ rep_hit_probability rep = Num 0) /\
    ((5 + 6) / 2 * (3/2) <= 100 -> rep_hit_probability rep = Num 100).
Proof.
  apply (run_avg_hit_time_line nat sample_seed sample_gauss O 100 100 (45/10) 0 30 5 6 30 (3/2)
           (spec_price math_erf 100 100 (IZR 30 / 365) (45/10 / 100) (30 / 100) (0 / 100))).
  - lia.
  - apply black_scholes_call_value; lra.
  - apply Rgt_not_eq. apply spec_price_bounds; lra.
Defined.

Lemma run_verdict_witness :
  exists rep,
    fst (run sample_seed sample_gauss O 100 100 (45/10) 0 30 5 6 30 (3/2)) = Results rep /\
    rep_fair_value rep
    = spec_price math_erf 100 100 (IZR 30 / 365) (45/10 / 100) (30 / 100) (0 / 100) /\
    (rep_verdict rep = FAIRLY_PRICED <->
       Rabs ((5 + 6) / 2
             - spec_price math_erf 100 100 (IZR 30 / 365) (45/10 / 100) (30 / 100) (0 / 100))
       < 0.01) /\
    (rep_verdict rep = UNDERVALUED <->
       spec_price math_erf 100 100 (IZR 30 / 365) (45/10 / 100) (30 / 100) (0 / 100) + 0.01
       <= (5 + 6) / 2) /\
    (rep_verdict rep = OVERVALUED <->
       (5 + 6) / 2
       <= spec_price math_erf 100 100 (IZR 30 / 365) (45/10 / 100) (30 / 100) (0 / 100) - 0.01).
Proof.
  apply run_verdict.
  - lia.
  - apply black_scholes_call_value; lra.
  - apply Rgt_not_eq. apply spec_price_bounds; lra.
Defined.
